(** * UEFL: extensible vector-quantisation codebooks

    A shallow embedding of [src/model/vqmodel.py]: the three quantiser
    classes ([VectorQuantizer], [VectorQuantizerEMA], [extVQ]) and the
    codebook operations of [UEFL].

    Conventions of the embedding.
    - A torch tensor is its shape together with its elements in row-major
      (contiguous) order; a 2-D tensor that the code only walks row by row
      (codebook weights, flattened features, encodings) is a list of rows.
    - Tensor elements are taken from a [Scalar] interface, and every
      definition is written once, over that interface.  The element type
      of the code is [torch.float32]: the instance [F32_scalar] is IEEE 754
      binary32 (round to nearest even, signed zeros, infinities, NaN) and
      runs the definitions as the code runs them.  The rationals and the
      reals are the exact instances; a theorem stated on them is kept to
      what the float32 operations also do.
    - Autograd is modelled by the [Dual] instance: every element carries
      the derivative along a seeded direction, and [detach] drops it.
    - A raised Python exception is a [Raise] result; the module state that
      was current when it was raised is kept.
    - [nn.Embedding(n, d)] fills its weight with random normal values; the
      values drawn are an explicit argument [draw]. *)

From Stdlib Require Import List ZArith QArith Qreduction Reals Lra Lia Bool Arith.
From Stdlib Require SpecFloat.
Import ListNotations.
Close Scope Q_scope.

Set Implicit Arguments.

(** ** Scalars *)

(** The arithmetic a tensor element supports.  [s_of_Z] converts an element
    count (or an integer literal) to a scalar; [s_detach] is
    [Tensor.detach] on one element. *)
Class Scalar (T : Type) : Type := {
  s_zero : T;
  s_one : T;
  s_add : T -> T -> T;
  s_sub : T -> T -> T;
  s_mul : T -> T -> T;
  s_div : T -> T -> T;
  s_neg : T -> T;
  s_ltb : T -> T -> bool;
  s_of_Z : Z -> T;
  s_detach : T -> T
}.

(** [torch.exp] and [torch.log]. *)
Class Transcendental (T : Type) : Type := {
  s_exp : T -> T;
  s_log : T -> T
}.

(** Exact rationals, kept in lowest terms so that equal numbers are equal
    terms. *)
#[export] Instance Q_scalar : Scalar Q := {
  s_zero := 0%Q;
  s_one := 1%Q;
  s_add := fun x y => Qred (x + y)%Q;
  s_sub := fun x y => Qred (x - y)%Q;
  s_mul := fun x y => Qred (x * y)%Q;
  s_div := fun x y => Qred (x / y)%Q;
  s_neg := fun x => Qred (- x)%Q;
  s_ltb := fun x y => negb (Qle_bool y x);
  s_of_Z := fun z => inject_Z z;
  s_detach := fun x => x
}.

Definition Rltb (x y : R) : bool := if Rlt_dec x y then true else false.

#[export] Instance R_scalar : Scalar R := {
  s_zero := 0%R;
  s_one := 1%R;
  s_add := Rplus;
  s_sub := Rminus;
  s_mul := Rmult;
  s_div := Rdiv;
  s_neg := Ropp;
  s_ltb := Rltb;
  s_of_Z := IZR;
  s_detach := fun x => x
}.

#[export] Instance R_transcendental : Transcendental R := {
  s_exp := exp;
  s_log := ln
}.

(** IEEE 754 binary32, the element type of the tensors of the code: 24
    bits of precision and exponents up to 128, every operation rounded to
    nearest, ties to even, as the Standard Library's [SpecFloat] specifies
    it.  A Python scalar that meets a float32 tensor is converted to
    binary32 first; [f32_of_Z] is that conversion for an integer.
    [s_ltb] is the IEEE comparison, false on NaN.  There is no
    [Transcendental] instance: [torch.exp] and [torch.log] on float32 are
    library routines without an exact specification. *)
Definition f32_of_Z (z : Z) : SpecFloat.spec_float :=
  SpecFloat.binary_normalize 24 128 z 0 false.

#[export] Instance F32_scalar : Scalar SpecFloat.spec_float := {
  s_zero := SpecFloat.S754_zero false;
  s_one := f32_of_Z 1;
  s_add := SpecFloat.SFadd 24 128;
  s_sub := SpecFloat.SFsub 24 128;
  s_mul := SpecFloat.SFmul 24 128;
  s_div := SpecFloat.SFdiv 24 128;
  s_neg := SpecFloat.SFopp;
  s_ltb := SpecFloat.SFltb;
  s_of_Z := f32_of_Z;
  s_detach := fun x => x
}.

(** Forward-mode autograd: a value together with its derivative along the
    direction seeded on the inputs.  [detach] keeps the value and cuts the
    derivative; comparisons and integer conversions carry none. *)
Record Dual (T : Type) : Type := mkDual { val : T; tan : T }.


#[export] Instance Dual_transcendental (T : Type) `{Scalar T} `{Transcendental T}
  : Transcendental (Dual T) := {
  s_exp := fun x => mkDual (s_exp (val x)) (s_mul (tan x) (s_exp (val x)));
  s_log := fun x => mkDual (s_log (val x)) (s_div (tan x) (val x))
}.

(** ** Exceptions and the state monad of a module *)

(** Why a call raised. *)
Inductive error : Type :=
| InvalidIndex      (* a list or ModuleList subscript out of range *)
| ShapeMismatch     (* view / cat / matmul on incompatible shapes *)
| EmptyReduction    (* argmin over a dimension of size 0 *)
| EmptyConcat       (* torch.concat of an empty list *)
| ClusteringFailure. (* raised inside KMeans.fit *)

Inductive result (A : Type) : Type :=
| Ok (a : A)
| Raise (e : error).
Arguments Ok {A} a.
Arguments Raise {A} e.

(** A computation over module state [S]: the state after the call comes
    back whether or not the call raised. *)
Definition M (S A : Type) : Type := S -> S * result A.

Definition ret {S A : Type} (a : A) : M S A := fun s => (s, Ok a).

Definition bind {S A B : Type} (m : M S A) (f : A -> M S B) : M S B :=
  fun s =>
    match m s with
    | (s', Ok a) => f a s'
    | (s', Raise e) => (s', Raise e)
    end.

Definition lift {S A : Type} (r : result A) : M S A := fun s => (s, r).

Declare Scope vq_scope.
Delimit Scope vq_scope with vq.
Notation "x <- c ;; k" := (bind c (fun x => k))
  (at level 61, c at next level, right associativity) : vq_scope.
Notation "c ;;; k" := (bind c (fun _ => k))
  (at level 61, right associativity) : vq_scope.

(** ** Tensors *)

Section Tensors.
Context {T : Type} `{Scalar T}.

(** A 2-D tensor walked row by row. *)
Definition matrix : Type := list (list T).

(** A 4-D tensor: shape and contiguous data. *)
Record tensor4 : Type := mkTensor4 {
  t_shape : nat * nat * nat * nat;
  t_data : list T
}.

Definition numel (t : tensor4) : nat :=
  let '(d0, d1, d2, d3) := t_shape t in d0 * d1 * d2 * d3.

(** A record is a tensor when its data fills its shape. *)
Definition wf_tensor (t : tensor4) : Prop := length (t_data t) = numel t.

(** [torch.sum] of a 1-D tensor. *)
Definition tsum (l : list T) : T := fold_right s_add s_zero l.

Fixpoint zip_with {A B C : Type} (f : A -> B -> C) (l : list A) (m : list B)
  : list C :=
  match l, m with
  | a :: l', b :: m' => f a b :: zip_with f l' m'
  | _, _ => []
  end.

Definition dot (x y : list T) : T := tsum (zip_with s_mul x y).

(** [torch.sum(x ** 2, dim=1)] on one row. *)
Definition sqnorm (x : list T) : T := tsum (map (fun v => s_mul v v) x).

(** Column [j] of a matrix given by rows. *)
Definition column (j : nat) (m : matrix) : list T :=
  map (fun r => nth j r s_zero) m.

(** [torch.matmul(a, b)] for [a] of shape n x m and [b] of shape m x d. *)
Definition matmul (d : nat) (a b : matrix) : matrix :=
  map (fun r => map (fun j => dot r (column j b)) (seq 0 d)) a.

(** The contiguous data of a tensor of shape n0 x n1 x n2 x n3 whose
    element (a, b, c, d) is [f a b c d]. *)
Definition tabulate4 {A : Type} (n0 n1 n2 n3 : nat)
    (f : nat -> nat -> nat -> nat -> A) : list A :=
  flat_map (fun a =>
    flat_map (fun b =>
      flat_map (fun c => map (fun d => f a b c d) (seq 0 n3)) (seq 0 n2))
      (seq 0 n1))
    (seq 0 n0).

(** Offset of element (a, b, c, d) in contiguous data of shape
    _ x n1 x n2 x n3. *)
Definition offset4 (n1 n2 n3 a b c d : nat) : nat :=
  ((a * n1 + b) * n2 + c) * n3 + d.

(** [x.permute(0, 2, 3, 1).contiguous()]: element (b, h, w, c) of the result
    is element (b, c, h, w) of [x]. *)
Definition permute_0231 (x : tensor4) : tensor4 :=
  let '(nb, nc, nh, nw) := t_shape x in
  mkTensor4 (nb, nh, nw, nc)
    (tabulate4 nb nh nw nc
       (fun b h w c => nth (offset4 nc nh nw b c h w) (t_data x) s_zero)).

(** [x.permute(0, 3, 1, 2).contiguous()]: element (b, c, h, w) of the result
    is element (b, h, w, c) of [x]. *)
Definition permute_0312 (x : tensor4) : tensor4 :=
  let '(nb, nh, nw, nc) := t_shape x in
  mkTensor4 (nb, nc, nh, nw)
    (tabulate4 nb nc nh nw
       (fun b c h w => nth (offset4 nh nw nc b h w c) (t_data x) s_zero)).

(** The first [n] rows of width [d] cut from contiguous data. *)
Fixpoint chunks (d n : nat) (l : list T) : list (list T) :=
  match n with
  | O => []
  | S n' => firstn d l :: chunks d n' (skipn d l)
  end.

(** [x.view(-1, d)]: the inferred dimension exists when [d] is not zero and
    divides the number of elements. *)
Definition view_rows (d : nat) (x : tensor4) : result matrix :=
  let n := length (t_data x) in
  if (d =? 0)%nat then Raise ShapeMismatch
  else if (n mod d =? 0)%nat then Ok (chunks d (n / d) (t_data x))
  else Raise ShapeMismatch.

(** [m.view(shape)] for a matrix whose elements fill [shape]. *)
Definition view_as (shape : nat * nat * nat * nat) (m : matrix) : tensor4 :=
  mkTensor4 shape (concat m).

(** Elementwise binary operation on tensors of one shape. *)
Definition tmap2 (f : T -> T -> T) (x y : tensor4) : tensor4 :=
  mkTensor4 (t_shape x) (zip_with f (t_data x) (t_data y)).

Definition tmap (f : T -> T) (x : tensor4) : tensor4 :=
  mkTensor4 (t_shape x) (map f (t_data x)).

(** [F.mse_loss(a, b)]: the mean of the squared differences.  Over no
    element at all torch returns NaN; here the quotient is whatever the
    scalar instance makes of a division by zero. *)
Definition mse_loss (a b : tensor4) : T :=
  s_div (tsum (zip_with (fun u v => s_mul (s_sub u v) (s_sub u v))
                        (t_data a) (t_data b)))
        (s_of_Z (Z.of_nat (length (t_data a)))).

(** ** Nearest-code assignment *)

(** [sum(x**2, 1, keepdim) + sum(codes**2, 1) - 2. * matmul(x, codes.t())]:
    entry (i, j) of the product is [dot] of row i of [x] and row j of [codes]. *)
Definition distances (flat_input codes : matrix) : matrix :=
  map (fun x =>
         map (fun c =>
                s_sub (s_add (sqnorm x) (sqnorm c))
                      (s_mul (s_of_Z 2) (dot x c)))
             codes)
      flat_input.

(** Scan for the minimum, keeping the earliest index on ties. *)
Fixpoint argmin_from (best : T) (bi i : nat) (l : list T) : nat :=
  match l with
  | [] => bi
  | x :: r =>
      if s_ltb x best then argmin_from x i (S i) r
      else argmin_from best bi (S i) r
  end.

(** [torch.argmin] along a row; it raises on a row of length 0. *)
Definition argmin (l : list T) : result nat :=
  match l with
  | [] => Raise EmptyReduction
  | x :: r => Ok (argmin_from x 0 1 r)
  end.

Fixpoint map_result {A B : Type} (f : A -> result B) (l : list A)
  : result (list B) :=
  match l with
  | [] => Ok []
  | a :: l' =>
      match f a with
      | Raise e => Raise e
      | Ok b =>
          match map_result f l' with
          | Raise e => Raise e
          | Ok bs => Ok (b :: bs)
          end
      end
  end.

(** [torch.argmin(distances, dim=1)]: the reduced dimension must not be
    empty, whatever the number of rows. *)
Definition argmin_rows (m : nat) (dist : matrix) : result (list nat) :=
  if (m =? 0)%nat then Raise EmptyReduction else map_result argmin dist.

(** A row of [torch.zeros(n, m)] after [scatter_(1, k, 1)]. *)
Definition one_hot (m k : nat) : list T :=
  map (fun j => if (j =? k)%nat then s_one else s_zero) (seq 0 m).

Definition encode (m : nat) (indices : list nat) : matrix :=
  map (one_hot m) indices.

(** [torch.mean(encodings, dim=0)] for encodings with [m] columns (NaN in
    torch when there is no row; see [mse_loss]). *)
Definition mean_rows (m : nat) (enc : matrix) : list T :=
  map (fun j => s_div (tsum (column j enc)) (s_of_Z (Z.of_nat (length enc))))
      (seq 0 m).

(** [torch.sum(encodings, 0)]. *)
Definition sum_rows (m : nat) (enc : matrix) : list T :=
  map (fun j => tsum (column j enc)) (seq 0 m).

End Tensors.

Arguments matrix T : clear implicits.
Arguments tensor4 T : clear implicits.
Arguments tsum {T H} l : simpl never.

(** ** The quantiser modules *)

Section Quantizers.
Context {T : Type} `{Scalar T} `{Transcendental T}.

Local Open Scope vq_scope.

(** The literal [1e-10]. *)
Definition lit_1e_10 : T := s_div (s_of_Z 1) (s_of_Z 10000000000).

(** [torch.exp(-torch.sum(avg_probs * torch.log(avg_probs + 1e-10)))] with
    [avg_probs = torch.mean(encodings, dim=0)]. *)
Definition perplexity (m : nat) (encodings : matrix T) : T :=
  let avg_probs := mean_rows m encodings in
  s_exp (s_neg (tsum (map (fun p => s_mul p (s_log (s_add p lit_1e_10)))
                          avg_probs))).

(** The weight of [nn.Embedding(n, d)] once its normal initialisation has
    drawn [draw i j] for entry (i, j). *)
Definition embedding (n d : nat) (draw : nat -> nat -> T) : matrix T :=
  map (fun i => map (fun j => draw i j) (seq 0 d)) (seq 0 n).

(** Every row of [codes] has [d] columns (what [torch.cat] along dim 0 and
    the product with [codes.t()] require).  A matrix with no rows carries
    no width here; the reduction over it raises in [argmin_rows]. *)
Definition widths_ok (d : nat) (codes : matrix T) : bool :=
  forallb (fun r => (length r =? d)%nat) codes.

(** [inputs + (quantized - inputs).detach()]. *)
Definition straight_through (inputs quantized : tensor4 T) : tensor4 T :=
  tmap2 (fun x q => s_add x (s_detach (s_sub q x))) inputs quantized.

(** *** extVQ *)

(** State of an [extVQ] module.  [codebooks] holds the weight of each entry
    of the [nn.ModuleList]; [fetched] logs, oldest first, the absolute index
    of every entry that an evaluation of [self.codebooks[i]] returned. *)
Record extVQ : Type := mk_extVQ {
  _embedding_dim : nat;
  _num_embeddings : nat;
  _commitment_cost : T;
  codebooks : list (matrix T);
  fetched : list nat
}.

(** [extVQ.__init__]: the shared codebook and one backup codebook.  The
    argument [silo_kinds] of the constructor is not used by the class. *)
Definition extVQ_init (num_embeddings embedding_dim : nat) (commitment_cost : T)
    (draw_embed draw_backup : nat -> nat -> T) : extVQ :=
  let embed := embedding num_embeddings embedding_dim draw_embed in
  let embeddings := [embed] in
  let embeddings :=
    embeddings ++ [embedding num_embeddings embedding_dim draw_backup] in
  mk_extVQ embedding_dim num_embeddings commitment_cost embeddings [].

Definition with_codebooks (s : extVQ) (cbs : list (matrix T)) : extVQ :=
  mk_extVQ (_embedding_dim s) (_num_embeddings s) (_commitment_cost s) cbs
           (fetched s).

Definition log_fetch (k : nat) (s : extVQ) : extVQ :=
  mk_extVQ (_embedding_dim s) (_num_embeddings s) (_commitment_cost s)
           (codebooks s) (fetched s ++ [k]).

(** [nn.ModuleList] resolves an index as Python lists do: [i] is accepted
    when [-len <= i < len], and a negative [i] counts from the end. *)
Definition abs_index (len : nat) (i : Z) : result nat :=
  let n := Z.of_nat len in
  if ((- n <=? i) && (i <? n))%Z
  then Ok (Z.to_nat (if (i <? 0)%Z then i + n else i)%Z)
  else Raise InvalidIndex.

(** [self.codebooks[i].weight]. *)
Definition getitem (i : Z) : M extVQ (matrix T) :=
  fun s =>
    match abs_index (length (codebooks s)) i with
    | Raise e => (s, Raise e)
    | Ok k =>
        match nth_error (codebooks s) k with
        | Some w => (log_fetch k s, Ok w)
        | None => (s, Raise InvalidIndex)
        end
    end.

(** [self.codebooks.append(nn.Embedding(n, d))]. *)
Definition append_codebook (w : matrix T) : M extVQ unit :=
  fun s => (with_codebooks s (codebooks s ++ [w]), Ok tt).

(** The accessible codewords of silo [idx] (the branch on [idx == 0]). *)
Definition select_codes (idx : Z) : M extVQ (matrix T) :=
  if (idx =? 0)%Z then
    getitem 0
  else
    shared <- getitem 0 ;;
    extra <- getitem idx ;;
    ret (shared ++ extra).

(** Nearest-code assignment: distances to the codewords, [argmin] along
    each row, and the one-hot [encodings] that [scatter_] writes.  The rows
    of [flat_input] come from [view_rows d] and have [d] columns. *)
Definition assign (d : nat) (flat_input codes : matrix T) : result (matrix T) :=
  if negb (widths_ok d codes) then Raise ShapeMismatch
  else
    match argmin_rows (length codes) (distances flat_input codes) with
    | Raise e => Raise e
    | Ok encoding_indices => Ok (encode (length codes) encoding_indices)
    end.

(** [torch.matmul(encodings, codes).view(input_shape)]. *)
Definition quantized_raw (d : nat) (input_shape : nat * nat * nat * nat)
    (encodings codes : matrix T) : tensor4 T :=
  view_as input_shape (matmul d encodings codes).

(** [q_latent_loss + commitment_cost * e_latent_loss]. *)
Definition vq_loss (commitment_cost : T) (inputs quantized : tensor4 T) : T :=
  let e_latent_loss := mse_loss (tmap s_detach quantized) inputs in
  let q_latent_loss := mse_loss quantized (tmap s_detach inputs) in
  s_add q_latent_loss (s_mul commitment_cost e_latent_loss).

(** What [extVQ.forward] computes once the codewords are selected; the
    module state plays no part in it. *)
Definition quantize (d : nat) (commitment_cost : T) (inputs : tensor4 T)
    (flat_input codes : matrix T) : result (tensor4 T * T * T) :=
  match assign d flat_input codes with
  | Raise e => Raise e
  | Ok encodings =>
      let quantized := quantized_raw d (t_shape inputs) encodings codes in
      let loss := vq_loss commitment_cost inputs quantized in
      let quantized := straight_through inputs quantized in
      let ppl := perplexity (length codes) encodings in
      Ok (permute_0312 quantized, loss, ppl)
  end.

(** [self.codebooks.append(nn.Embedding(n, d))] when [ext] is set. *)
Definition extend_if (ext : bool) (draw : nat -> nat -> T) : M extVQ unit :=
  fun s =>
    if ext
    then append_codebook
           (embedding (_num_embeddings s) (_embedding_dim s) draw) s
    else ret tt s.

(** [extVQ.forward(inputs, idx, ext)]: the quantised tensor, the loss and
    the perplexity. *)
Definition forward (inputs : tensor4 T) (idx : Z) (ext : bool)
    (draw : nat -> nat -> T) : M extVQ (tensor4 T * T * T) :=
  let inputs := permute_0231 inputs in
  fun s =>
  (flat_input <- lift (view_rows (_embedding_dim s) inputs) ;;
   extend_if ext draw ;;;
   codes <- select_codes idx ;;
   lift (quantize (_embedding_dim s) (_commitment_cost s)
                  inputs flat_input codes)) s.

(** *** VectorQuantizer *)

(** State of a [VectorQuantizer] module, its fields prefixed with [vq]. *)
Record VectorQuantizer : Type := mk_VQ {
  vq_embedding_dim : nat;
  vq_num_embeddings : nat;
  vq_commitment_cost : T;
  vq_weight : matrix T
}.

(** [VectorQuantizer.forward(inputs)]: the quantisation of [extVQ] against
    the single embedding table.  The encodings have [_num_embeddings]
    columns, so the product with the weight needs the weight to have that
    many rows. *)
Definition vq_forward (inputs : tensor4 T)
  : M VectorQuantizer (tensor4 T * T * T) :=
  let inputs := permute_0231 inputs in
  fun s =>
    match view_rows (vq_embedding_dim s) inputs with
    | Raise e => (s, Raise e)
    | Ok flat_input =>
        if negb (length (vq_weight s) =? vq_num_embeddings s)%nat
        then (s, Raise ShapeMismatch)
        else (s, quantize (vq_embedding_dim s) (vq_commitment_cost s)
                          inputs flat_input (vq_weight s))
    end.

(** *** VectorQuantizerEMA *)

(** State of a [VectorQuantizerEMA] module.  The fields [_embedding_dim],
    [_num_embeddings] and [_commitment_cost] carry a prefix here, the plain
    names being those of [extVQ]. *)
Record VectorQuantizerEMA : Type := mk_VQEMA {
  ema_embedding_dim : nat;
  ema_num_embeddings : nat;
  ema_commitment_cost : T;
  embeddings_weight : matrix T;
  _ema_cluster_size : list T;
  _ema_w : matrix T;
  _decay : T;
  _epsilon : T;
  training : bool
}.

(** The accumulation of cluster sizes:
    [_ema_cluster_size * decay + (1 - decay) * torch.sum(encodings, 0)]. *)
Definition ema_accumulate (decay : T) (cluster_size counts : list T) : list T :=
  zip_with (fun c k => s_add (s_mul c decay) (s_mul (s_sub s_one decay) k))
           cluster_size counts.

(** Laplace smoothing of the cluster size:
    [(cluster_size + eps) / (n + num_embeddings * eps) * n] with
    [n = torch.sum(cluster_size)]. *)
Definition laplace_smooth (num_embeddings : nat) (epsilon : T)
    (cluster_size : list T) : list T :=
  let n := tsum cluster_size in
  map (fun c =>
         s_mul (s_div (s_add c epsilon)
                      (s_add n (s_mul (s_of_Z (Z.of_nat num_embeddings)) epsilon)))
               n)
      cluster_size.

(** [torch.matmul(encodings.t(), flat_input)]: row j collects the inputs
    assigned to codeword j. *)
Definition matmul_tl (m d : nat) (encodings flat_input : matrix T) : matrix T :=
  map (fun j => map (fun c => dot (column j encodings) (column c flat_input))
                    (seq 0 d))
      (seq 0 m).

(** The training branch of [VectorQuantizerEMA.forward]. *)
Definition ema_update (encodings flat_input : matrix T)
    (s : VectorQuantizerEMA) : VectorQuantizerEMA :=
  let m := ema_num_embeddings s in
  let cluster_size :=
    ema_accumulate (_decay s) (_ema_cluster_size s) (sum_rows m encodings) in
  let cluster_size := laplace_smooth m (_epsilon s) cluster_size in
  let dw := matmul_tl m (ema_embedding_dim s) encodings flat_input in
  let ema_w :=
    zip_with (zip_with (fun w k =>
                s_add (s_mul w (_decay s)) (s_mul (s_sub s_one (_decay s)) k)))
             (_ema_w s) dw in
  let weight :=
    zip_with (fun row c => map (fun w => s_div w c) row) ema_w cluster_size in
  mk_VQEMA (ema_embedding_dim s) m (ema_commitment_cost s) weight
           cluster_size ema_w (_decay s) (_epsilon s) (training s).

(** [VectorQuantizerEMA.forward(inputs)].  The encodings have
    [_num_embeddings] columns, so the product with the weight needs the
    weight to have that many rows. *)
Definition ema_forward (inputs : tensor4 T)
  : M VectorQuantizerEMA (tensor4 T * T * T) :=
  let inputs := permute_0231 inputs in
  fun s =>
    let d := ema_embedding_dim s in
    let weight := embeddings_weight s in
    match view_rows d inputs with
    | Raise e => (s, Raise e)
    | Ok flat_input =>
        if negb (length weight =? ema_num_embeddings s)%nat
        then (s, Raise ShapeMismatch)
        else
          match assign d flat_input weight with
          | Raise e => (s, Raise e)
          | Ok encodings =>
              let quantized := quantized_raw d (t_shape inputs) encodings weight in
              let s' :=
                if training s then ema_update encodings flat_input s else s in
              let e_latent_loss := mse_loss (tmap s_detach quantized) inputs in
              let loss := s_mul (ema_commitment_cost s) e_latent_loss in
              let quantized := straight_through inputs quantized in
              let ppl := perplexity (ema_num_embeddings s) encodings in
              (s', Ok (permute_0312 quantized, loss, ppl))
          end
    end.

End Quantizers.

Arguments extVQ T : clear implicits.
Arguments VectorQuantizer T : clear implicits.
Arguments VectorQuantizerEMA T : clear implicits.

(** ** The UEFL model *)

Section UEFLModule.
Context {T : Type} `{Scalar T} `{Transcendental T}.

Local Open Scope vq_scope.

(** The collaborators of [UEFL] that live outside [vqmodel.py]: the encoder
    and the classifier of [model.basemodel], and scikit-learn's
    [KMeans(n_clusters=k, random_state=0, n_init="auto").fit(x).cluster_centers_].
    Each may raise. *)
Variable encoder : tensor4 T -> result (tensor4 T).
Variable classifier : matrix T -> result (matrix T).
Variable kmeans_centers : nat -> matrix T -> result (matrix T).

(** State of a [UEFL] module: the number of codewords per codebook, the
    codeword length [self.dim], and the quantiser. *)
Record UEFL : Type := mk_UEFL {
  num_embeddings : nat;
  dim : nat;
  discretizer : extVQ T
}.

(** The literal [0.25] passed as [commitment_cost]. *)
Definition lit_0_25 : T := s_div (s_of_Z 1) (s_of_Z 4).

(** [UEFL.__init__], from the point where the codeword length [self.dim]
    has been derived from the encoder settings. *)
Definition UEFL_init (num_codes codeword_dim : nat)
    (draw_embed draw_backup : nat -> nat -> T) : UEFL :=
  mk_UEFL num_codes codeword_dim
          (extVQ_init num_codes codeword_dim lit_0_25 draw_embed draw_backup).

(** Run a method of [self.discretizer]. *)
Definition on_discretizer {A : Type} (m : M (extVQ T) A) : M UEFL A :=
  fun u =>
    let '(q, r) := m (discretizer u) in
    (mk_UEFL (num_embeddings u) (dim u) q, r).

(** Python's [l[i]] on a list, for an index produced by [range]. *)
Definition py_index {A : Type} (l : list A) (i : nat) : result A :=
  match nth_error l i with
  | Some a => Ok a
  | None => Raise InvalidIndex
  end.

Fixpoint list_set {A : Type} (k : nat) (a : A) (l : list A) : list A :=
  match l, k with
  | [], _ => []
  | _ :: l', O => a :: l'
  | b :: l', S k' => b :: list_set k' a l'
  end.

(** [self.codebooks[i].weight.data = w]: the entry is fetched, then its
    weight is replaced. *)
Definition set_weight (i : Z) (w : matrix T) : M (extVQ T) unit :=
  fun s =>
    match abs_index (length (codebooks s)) i with
    | Raise e => (s, Raise e)
    | Ok k =>
        let s := log_fetch k s in
        (with_codebooks s (list_set k w (codebooks s)), Ok tt)
    end.

(** [torch.concat(feas, dim=0)] on 4-D tensors: the list must not be empty
    and the tensors must agree on every dimension but the first. *)
Fixpoint concat0 (feas : list (tensor4 T)) : result (tensor4 T) :=
  match feas with
  | [] => Raise EmptyConcat
  | x :: rest =>
      match rest with
      | [] => Ok x
      | _ :: _ =>
          match concat0 rest with
          | Raise e => Raise e
          | Ok y =>
              let '(b1, c1, h1, w1) := t_shape x in
              let '(b2, c2, h2, w2) := t_shape y in
              if ((c1 =? c2) && (h1 =? h2) && (w1 =? w2))%nat
              then Ok (mkTensor4 (b1 + b2, c1, h1, w1) (t_data x ++ t_data y))
              else Raise ShapeMismatch
          end
      end
  end.

(** The features [init_codebooks] hands to k-means: the encoder output of
    every batch, concatenated, permuted to channels-last and reshaped to
    rows of [self.dim] columns.  The labels of the loader are not used. *)
Definition collect_features {Y : Type} (d : nat) (dsloader : list (tensor4 T * Y))
  : result (matrix T) :=
  match map_result (fun batch => encoder (fst batch)) dsloader with
  | Raise e => Raise e
  | Ok feas =>
      match concat0 feas with
      | Raise e => Raise e
      | Ok feas => view_rows d (permute_0231 feas)
      end
  end.

(** [UEFL.init_codebooks(dsloader, idx, device)]. *)
Definition init_codebooks {Y : Type} (dsloader : list (tensor4 T * Y)) (idx : Z)
  : M UEFL unit :=
  fun u =>
    (feas <- lift (collect_features (dim u) dsloader) ;;
     centers <- lift (kmeans_centers (num_embeddings u) feas) ;;
     on_discretizer (set_weight idx centers)) u.

(** [UEFL.get_codebooks()]. *)
Fixpoint get_loop (indices : list nat) : M (extVQ T) (list (matrix T)) :=
  match indices with
  | [] => ret []
  | i :: rest =>
      w <- getitem (Z.of_nat i) ;;
      ws <- get_loop rest ;;
      ret (w :: ws)
  end.

Definition get_codebooks : M UEFL (list (matrix T)) :=
  fun u =>
    on_discretizer (get_loop (seq 0 (length (codebooks (discretizer u))))) u.

(** The loop of [UEFL.load_codebooks]: the right-hand side [codebooks[i]] is
    evaluated before the assignment to [...codebooks[i].weight.data]. *)
Fixpoint load_loop (supplied : list (matrix T)) (indices : list nat)
  : M (extVQ T) unit :=
  match indices with
  | [] => ret tt
  | i :: rest =>
      w <- lift (py_index supplied i) ;;
      set_weight (Z.of_nat i) w ;;;
      load_loop supplied rest
  end.

(** [UEFL.load_codebooks(codebooks)]. *)
Definition load_codebooks (supplied : list (matrix T)) : M UEFL unit :=
  fun u =>
    on_discretizer
      (load_loop supplied (seq 0 (length (codebooks (discretizer u))))) u.

(** [UEFL.extend_codebooks(iteration)]. *)
Definition extend_codebooks (iteration : Z) (draw : nat -> nat -> T)
  : M UEFL unit :=
  fun u =>
    if (1 <? iteration)%Z
    then on_discretizer
           (append_codebook (embedding (num_embeddings u) (dim u) draw)) u
    else ret tt u.

(** [q_fea.flatten(1)]: one row per batch entry. *)
Definition flatten1 (x : tensor4 T) : matrix T :=
  let '(nb, nc, nh, nw) := t_shape x in
  chunks (nc * nh * nw) nb (t_data x).

(** [UEFL.forward(x, idx, ext)]. *)
Definition UEFL_forward (x : tensor4 T) (idx : Z) (ext : bool)
    (draw : nat -> nat -> T) : M UEFL (matrix T * T * T) :=
  fea <- lift (encoder x) ;;
  out <- on_discretizer (forward fea idx ext draw) ;;
  let '(q_fea, loss, ppl) := out in
  output <- lift (classifier (flatten1 q_fea)) ;;
  ret (output, loss, ppl).

End UEFLModule.

Arguments UEFL T : clear implicits.

(** ** Vocabulary of the statements *)

Section Vocabulary.
Context {T : Type} `{Scalar T} `{Transcendental T}.

(** The store when the codewords are selected: one codebook longer than at
    the call when [ext] is set. *)
Definition store_at_selection (ext : bool) (draw : nat -> nat -> T)
    (s : extVQ T) : list (matrix T) :=
  if ext
  then codebooks s ++ [embedding (_num_embeddings s) (_embedding_dim s) draw]
  else codebooks s.

(** A run of calls to [extend_codebooks], each with its [iteration] and the
    values its new embedding would draw. *)
Definition extend_many (calls : list (Z * (nat -> nat -> T))) (u : UEFL T)
  : UEFL T :=
  fold_left (fun u c => fst (extend_codebooks (fst c) (snd c) u)) calls u.

(** The shape [n x d] of a codebook weight. *)
Definition has_shape (n d : nat) (w : matrix T) : Prop :=
  length w = n /\ Forall (fun r => length r = d) w.


End Vocabulary.

(** ** Concrete modules and inputs *)

(** A quantiser with one codeword of length one per codebook: codebook 0 is
    [[0]], the backup codebook is [[1]]. *)
Definition demo_store : extVQ R :=
  extVQ_init 1 1 lit_0_25 (fun _ _ => 0%R) (fun _ _ => 1%R).

(** A 1 x 1 x 1 x 1 feature tensor. *)
Definition demo_input : tensor4 R := mkTensor4 (1, 1, 1, 1)%nat [0%R].

Definition demo_draw : nat -> nat -> R := fun _ _ => 2%R.

(** A model over the rationals with one codeword of length one per
    codebook: codebook 0 is [[0]], the backup codebook is [[1]]. *)
Definition demo_model : UEFL Q :=
  UEFL_init 1 1 (fun _ _ => 0%Q) (fun _ _ => 1%Q).


(** An EMA quantiser in training mode, before its first step. *)
Definition demo_ema : VectorQuantizerEMA R :=
  mk_VQEMA 1 2 lit_0_25 [[0%R]; [1%R]] [0%R; 0%R] [[0%R]; [0%R]]
           (1 / 2)%R (1 / 100000)%R true.







(** ** Further vocabulary *)

Section StoreInvariants.
Context {T : Type} `{Scalar T} `{Transcendental T}.

(** Every codebook of the quantiser has the shape its constructor gives a
    codebook. *)
Definition store_ok (s : extVQ T) : Prop :=
  Forall (has_shape (_num_embeddings s) (_embedding_dim s)) (codebooks s).

(** The model and its quantiser agree on the shape of a codebook, and every
    codebook has it. *)
Definition model_ok (u : UEFL T) : Prop :=
  _num_embeddings (discretizer u) = num_embeddings u /\
  _embedding_dim (discretizer u) = dim u /\
  store_ok (discretizer u).

(** The buffers of the EMA quantiser have the shapes its constructor gives
    them. *)
Definition ema_ok (s : VectorQuantizerEMA T) : Prop :=
  has_shape (ema_num_embeddings s) (ema_embedding_dim s) (embeddings_weight s) /\
  has_shape (ema_num_embeddings s) (ema_embedding_dim s) (_ema_w s) /\
  length (_ema_cluster_size s) = ema_num_embeddings s.

(** The basic quantiser on the embedding table of an EMA quantiser. *)
Definition ema_as_vq (s : VectorQuantizerEMA T) : VectorQuantizer T :=
  mk_VQ (ema_embedding_dim s) (ema_num_embeddings s) (ema_commitment_cost s)
        (embeddings_weight s).

(** The basic quantiser on the shared codebook [w] of an extensible one. *)
Definition shared_as_vq (s : extVQ T) (w : matrix T) : VectorQuantizer T :=
  mk_VQ (_embedding_dim s) (length w) (_commitment_cost s) w.


End StoreInvariants.

(** ** The FMNIST silo dataset ([src/dataset/fmnist.py]) *)

Section Dataset.
Context {T : Type} `{Scalar T}.

(** An image as [augment_silos] reads it: [x.shape] has two entries
    (height, width) or three (height, width, channels). *)
Inductive image : Type :=
| Gray (h w : nat) (px : list T)
| Colour (h w c : nat) (px : list T).

(** The collaborators: the values [np.random.normal(0, 100**0.5, shape)]
    draws for the image at position [i] of a call of [transform], and
    [cv2.warpAffine(x, cv2.getRotationMatrix2D(center, angle, 1.0), (w, h))]. *)
Variable gaussian : nat -> list T.
Variable rotate : Q * Q -> Z -> nat * nat -> image -> image.

(** Python's [a[start:stop]] on a sequence: a negative bound counts from
    the end, and both bounds are clipped to the sequence. *)
Definition py_slice {A : Type} (a : list A) (start stop : Z) : list A :=
  let n := Z.of_nat (length a) in
  let clip := fun i => if (i <? 0)%Z then Z.max 0 (i + n) else Z.min i n in
  let lo := clip start in
  let hi := clip stop in
  firstn (Z.to_nat (hi - lo)) (skipn (Z.to_nat lo) a).

(** Python's [a[i]] on a sequence, for any integer [i]. *)
Definition py_getitem {A : Type} (a : list A) (i : Z) : result A :=
  match abs_index (length a) i with
  | Raise e => Raise e
  | Ok k => py_index a k
  end.

(** The rotation angle of each silo. *)
Definition angles (num_silo : Z) : list Z :=
  if (num_silo =? 5)%Z then [0; 0; 0; -50; 120]%Z
  else [0; 0; 0; -50; -50; -50; 120; 120; 120]%Z.

(** [x + gaussian.astype(np.float32)]. *)
Definition add_noise (x : image) (g : list T) : image :=
  match x with
  | Gray h w px => Gray h w (zip_with s_add px g)
  | Colour h w c px => Colour h w c (zip_with s_add px g)
  end.

Definition image_hw (x : image) : nat * nat :=
  match x with
  | Gray h w _ => (h, w)
  | Colour h w _ _ => (h, w)
  end.

(** [FMNIST_silo.augment_silos(x, silo, num_silo)] for the image at
    position [i], with [self.noise = noise]. *)
Definition augment_silos (noise : bool) (i : nat) (x : image) (silo num_silo : Z)
  : result image :=
  match py_getitem (angles num_silo) silo with
  | Raise e => Raise e
  | Ok angle =>
      let '(h, w) := image_hw x in
      let x := if noise && (5 <? silo)%Z then add_noise x (gaussian i) else x in
      let center := (inject_Z (Z.of_nat w) / 2, inject_Z (Z.of_nat h) / 2)%Q in
      Ok (rotate center angle (w, h) x)
  end.

Fixpoint transform_loop (noise : bool) (num_silo silo : Z) (i : nat)
    (x : list image) : result (list image) :=
  match x with
  | [] => Ok []
  | xi :: rest =>
      match augment_silos noise i xi silo num_silo with
      | Raise e => Raise e
      | Ok r =>
          match transform_loop noise num_silo silo (S i) rest with
          | Raise e => Raise e
          | Ok rs => Ok (r :: rs)
          end
      end
  end.

(** [FMNIST_silo.transform(x, silo)]: every image augmented, then an axis
    of size one inserted after the first. *)
Definition transform (noise : bool) (num_silo : Z) (x : list image) (silo : Z)
  : result (list (list image)) :=
  match transform_loop noise num_silo silo 0 x with
  | Raise e => Raise e
  | Ok rotate_x => Ok (map (fun r => [r]) rotate_x)
  end.

(** What [args] carries. *)
Record silo_args : Type := mk_args {
  args_noise : bool;
  args_num_silo : Z;
  args_sample : Z
}.

(** The four arrays [idx2numpy.convert_from_file] reads. *)
Record fmnist_files : Type := mk_files {
  xtr_file : list image;
  ytr_file : list Z;
  xte_file : list image;
  yte_file : list Z
}.

Record FMNIST_silo : Type := mk_FMNIST {
  ds_noise : bool;
  ds_num_silo : Z;
  ds_data : list (list image);
  ds_label : list Z
}.

(** [FMNIST_silo.__init__(root, args, folder, silo)] on the arrays read from
    [root]; [is_val] is [folder == 'val']. *)
Definition FMNIST_init (files : fmnist_files) (args : silo_args) (is_val : bool)
    (silo : Z) : result FMNIST_silo :=
  let sample := args_sample args in
  let xtr := py_slice (xtr_file files) (silo * sample) ((silo + 1) * sample) in
  let ytr := py_slice (ytr_file files) (silo * sample) ((silo + 1) * sample) in
  let xte :=
    py_slice (xte_file files) (silo * (sample / 4)) ((silo + 1) * (sample / 4)) in
  let yte :=
    py_slice (yte_file files) (silo * (sample / 4)) ((silo + 1) * (sample / 4)) in
  let noise := args_noise args in
  let num_silo := args_num_silo args in
  if is_val then
    match transform noise num_silo xte silo with
    | Raise e => Raise e
    | Ok data => Ok (mk_FMNIST noise num_silo data yte)
    end
  else
    match transform noise num_silo xtr silo with
    | Raise e => Raise e
    | Ok data => Ok (mk_FMNIST noise num_silo data ytr)
    end.

(** [FMNIST_silo.__len__()]. *)
Definition ds_len (d : FMNIST_silo) : nat := length (ds_data d).

(** [FMNIST_silo.__getitem__(index)]. *)
Definition ds_getitem (d : FMNIST_silo) (index : Z)
  : result (list image * Z) :=
  match py_getitem (ds_data d) index with
  | Raise e => Raise e
  | Ok x =>
      match py_getitem (ds_label d) index with
      | Raise e => Raise e
      | Ok y => Ok (x, y)
      end
  end.

End Dataset.

Arguments image T : clear implicits.
Arguments FMNIST_silo T : clear implicits.
Arguments fmnist_files T : clear implicits.


(** ** A concrete dataset *)

(** Two training images with labels 7 and 8, two test images with labels
    3 and 4, one item per silo; no noise is drawn and the rotation is a
    toy one that returns the image. *)
Definition demo_gaussian : nat -> list Q := fun _ => [].

Definition demo_rotate (center : Q * Q) (angle : Z) (size : nat * nat)
    (x : image Q) : image Q := x.

Definition demo_files : fmnist_files Q :=
  mk_files [Gray 1 1 [1%Q]; Gray 1 1 [2%Q]] [7%Z; 8%Z]
           [Gray 1 1 [3%Q]; Gray 1 1 [4%Q]] [3%Z; 4%Z].

Definition demo_args : silo_args := mk_args false 5 1.

(** A 1 x 2 x 1 x 2 tensor with four distinct entries. *)
Definition demo_tensor : tensor4 Q :=
  mkTensor4 (1, 2, 1, 2)%nat [1%Q; 2%Q; 3%Q; 4%Q].
(** * Properties *)

(** Case analysis on every comparison of naturals in the goal. *)
Ltac nat_cases :=
  repeat match goal with
         | |- context [(?x <=? ?y)%nat] => destruct (Nat.leb_spec x y)
         | |- context [(?x <? ?y)%nat] => destruct (Nat.ltb_spec x y)
         | |- context [(?x =? ?y)%nat] => destruct (Nat.eqb_spec x y)
         end;
  simpl; try reflexivity; try lia.

(** ** Index resolution and codeword selection *)

Section Selection.
Context {T : Type} `{Scalar T}.

Lemma abs_index_lt (len : nat) (i : Z) (k : nat) :
  abs_index len i = Ok k -> (k < len)%nat.
Proof.
  unfold abs_index.
  destruct ((- Z.of_nat len <=? i)%Z && (i <? Z.of_nat len)%Z) eqn:E;
    [ | discriminate ].
  apply andb_true_iff in E. destruct E as [E1 E2].
  apply Z.leb_le in E1. apply Z.ltb_lt in E2.
  intros Hk. inversion Hk; subst k; clear Hk.
  destruct (i <? 0)%Z eqn:E3.
  - apply Z.ltb_lt in E3. lia.
  - apply Z.ltb_ge in E3. lia.
Qed.

Lemma abs_index_nonneg (len : nat) (i : Z) :
  (0 <= i < Z.of_nat len)%Z -> abs_index len i = Ok (Z.to_nat i).
Proof.
  intros [H0 H1]. unfold abs_index.
  replace (- Z.of_nat len <=? i)%Z with true by (symmetry; apply Z.leb_le; lia).
  replace (i <? Z.of_nat len)%Z with true by (symmetry; apply Z.ltb_lt; lia).
  replace (i <? 0)%Z with false by (symmetry; apply Z.ltb_ge; lia).
  reflexivity.
Qed.

Lemma abs_index_negative (len : nat) (i : Z) :
  (- Z.of_nat len <= i < 0)%Z ->
  abs_index len i = Ok (Z.to_nat (i + Z.of_nat len)).
Proof.
  intros [H0 H1]. unfold abs_index.
  replace (- Z.of_nat len <=? i)%Z with true by (symmetry; apply Z.leb_le; lia).
  replace (i <? Z.of_nat len)%Z with true by (symmetry; apply Z.ltb_lt; lia).
  replace (i <? 0)%Z with true by (symmetry; apply Z.ltb_lt; lia).
  reflexivity.
Qed.

Lemma abs_index_out (len : nat) (i : Z) :
  (i < - Z.of_nat len \/ Z.of_nat len <= i)%Z ->
  abs_index len i = Raise InvalidIndex.
Proof.
  intros Hout. unfold abs_index.
  destruct ((- Z.of_nat len <=? i)%Z && (i <? Z.of_nat len)%Z) eqn:E;
    [ | reflexivity ].
  apply andb_true_iff in E. destruct E as [E1 E2].
  apply Z.leb_le in E1. apply Z.ltb_lt in E2. lia.
Qed.

(** What one evaluation of [self.codebooks[i].weight] does. *)
Lemma getitem_spec (i : Z) (s : extVQ T) :
  getitem i s =
  match abs_index (length (codebooks s)) i with
  | Raise e => (s, Raise e)
  | Ok k =>
      match nth_error (codebooks s) k with
      | Some w => (log_fetch k s, Ok w)
      | None => (s, Raise InvalidIndex)
      end
  end.
Proof. reflexivity. Qed.

Lemma getitem_codebooks (i : Z) (s s' : extVQ T) (r : result (matrix T)) :
  getitem i s = (s', r) -> codebooks s' = codebooks s.
Proof.
  rewrite getitem_spec.
  destruct (abs_index (length (codebooks s)) i) as [k|e].
  - destruct (nth_error (codebooks s) k); intros E; inversion E; reflexivity.
  - intros E; inversion E; reflexivity.
Qed.

(** Selection, case by case. *)
Lemma select_codes_spec (idx : Z) (s : extVQ T) :
  select_codes idx s =
  match nth_error (codebooks s) 0 with
  | None => (s, Raise InvalidIndex)
  | Some shared =>
      if (idx =? 0)%Z then (log_fetch 0 s, Ok shared)
      else
        match abs_index (length (codebooks s)) idx with
        | Raise e => (log_fetch 0 s, Raise e)
        | Ok k =>
            match nth_error (codebooks s) k with
            | Some extra => (log_fetch k (log_fetch 0 s), Ok (shared ++ extra))
            | None => (log_fetch 0 s, Raise InvalidIndex)
            end
        end
  end.
Proof.
  unfold select_codes.
  destruct (codebooks s) as [|cb0 rest] eqn:Ecb.
  - destruct (idx =? 0)%Z; unfold bind; rewrite getitem_spec, Ecb; reflexivity.
  - assert (E0 : getitem 0 s = (log_fetch 0 s, Ok cb0)).
    { rewrite getitem_spec, Ecb. reflexivity. }
    simpl nth_error. destruct (idx =? 0)%Z; [ exact E0 | ].
    unfold bind. rewrite E0. rewrite getitem_spec. simpl codebooks.
    rewrite Ecb.
    destruct (abs_index (length (cb0 :: rest)) idx) as [k|e]; [ | reflexivity ].
    destruct (nth_error (cb0 :: rest) k); reflexivity.
Qed.

Lemma select_codes_codebooks (idx : Z) (s s' : extVQ T) (r : result (matrix T)) :
  select_codes idx s = (s', r) -> codebooks s' = codebooks s.
Proof.
  rewrite select_codes_spec.
  destruct (nth_error (codebooks s) 0).
  - destruct (idx =? 0)%Z.
    + intros E; inversion E; reflexivity.
    + destruct (abs_index (length (codebooks s)) idx) as [k|e].
      * destruct (nth_error (codebooks s) k); intros E; inversion E; reflexivity.
      * intros E; inversion E; reflexivity.
  - intros E; inversion E; reflexivity.
Qed.

End Selection.

(** ** The forward pass, step by step *)

Section ForwardSteps.
Context {T : Type} `{Scalar T} `{Transcendental T}.

Lemma extend_if_spec (ext : bool) (draw : nat -> nat -> T) (s : extVQ T) :
  extend_if ext draw s =
  (with_codebooks s (store_at_selection ext draw s), Ok tt).
Proof.
  unfold extend_if, store_at_selection, append_codebook, ret.
  destruct ext; [ reflexivity | ].
  destruct s; reflexivity.
Qed.

(** [extVQ.forward] as the sequence of its four steps. *)
Lemma forward_unfold (inputs : tensor4 T) (idx : Z) (ext : bool)
    (draw : nat -> nat -> T) (s : extVQ T) :
  forward inputs idx ext draw s =
  match view_rows (_embedding_dim s) (permute_0231 inputs) with
  | Raise e => (s, Raise e)
  | Ok flat_input =>
      match select_codes idx
              (with_codebooks s (store_at_selection ext draw s)) with
      | (s', Raise e) => (s', Raise e)
      | (s', Ok codes) =>
          (s', quantize (_embedding_dim s) (_commitment_cost s)
                        (permute_0231 inputs) flat_input codes)
      end
  end.
Proof.
  unfold forward, bind, lift.
  destruct (view_rows (_embedding_dim s) (permute_0231 inputs)) as [flat|e];
    [ | reflexivity ].
  rewrite extend_if_spec.
  destruct (select_codes idx _) as [s' [codes|e]]; reflexivity.
Qed.

(** A forward pass changes the store only by the append of [ext], and only
    once the features have passed the reshape. *)
Lemma forward_codebooks (inputs : tensor4 T) (idx : Z) (ext : bool)
    (draw : nat -> nat -> T) (s : extVQ T) :
  codebooks (fst (forward inputs idx ext draw s)) =
  match view_rows (_embedding_dim s) (permute_0231 inputs) with
  | Raise _ => codebooks s
  | Ok _ => store_at_selection ext draw s
  end.
Proof.
  rewrite forward_unfold.
  destruct (view_rows (_embedding_dim s) (permute_0231 inputs)) as [flat|e];
    [ | reflexivity ].
  destruct (select_codes idx _) as [s' r] eqn:E.
  apply select_codes_codebooks in E.
  destruct r; simpl; exact E.
Qed.

End ForwardSteps.

(** ** Nearest-code assignment *)

Section Assignment.
Context {T : Type} `{Scalar T}.

Lemma argmin_from_bound (l : list T) (best : T) (bi i : nat) :
  (bi < i)%nat -> (argmin_from best bi i l < i + length l)%nat.
Proof.
  revert best bi i.
  induction l as [|x r IH]; intros best bi i Hlt; simpl.
  - lia.
  - destruct (s_ltb x best).
    + specialize (IH x i (S i)). lia.
    + specialize (IH best bi (S i)). lia.
Qed.

Lemma argmin_lt (l : list T) (k : nat) :
  argmin l = Ok k -> (k < length l)%nat.
Proof.
  destruct l as [|x r]; simpl; [ discriminate | ].
  intros E. inversion E; subst k.
  pose proof (argmin_from_bound r x (bi := 0) (i := 1)). lia.
Qed.

Lemma argmin_total (l : list T) :
  l <> [] -> exists k, argmin l = Ok k.
Proof.
  destruct l as [|x r]; [ congruence | ].
  intros _. eexists. reflexivity.
Qed.

Lemma map_result_length {A B : Type} (f : A -> result B) (l : list A)
    (bs : list B) :
  map_result f l = Ok bs -> length bs = length l.
Proof.
  revert bs. induction l as [|a l IH]; intros bs; simpl.
  - intros E; inversion E; reflexivity.
  - destruct (f a) as [b|e]; [ | discriminate ].
    destruct (map_result f l) as [bs'|e]; [ | discriminate ].
    intros E; inversion E; subst bs. simpl. f_equal. apply IH. reflexivity.
Qed.

Lemma map_result_Forall2 {A B : Type} (f : A -> result B) (l : list A)
    (bs : list B) :
  map_result f l = Ok bs -> Forall2 (fun a b => f a = Ok b) l bs.
Proof.
  revert bs. induction l as [|a l IH]; intros bs; simpl.
  - intros E; inversion E; constructor.
  - destruct (f a) as [b|e] eqn:Ea; [ | discriminate ].
    destruct (map_result f l) as [bs'|e]; [ | discriminate ].
    intros E; inversion E; subst bs. constructor; [ exact Ea | ].
    apply IH. reflexivity.
Qed.

Lemma map_result_total {A B : Type} (f : A -> result B) (l : list A) :
  Forall (fun a => exists b, f a = Ok b) l ->
  exists bs, map_result f l = Ok bs.
Proof.
  induction 1 as [|a l [b Eb] _ [bs Ebs]]; simpl.
  - eexists; reflexivity.
  - rewrite Eb, Ebs. eexists; reflexivity.
Qed.

Lemma distances_rows (flat_input codes : matrix T) :
  Forall (fun r => length r = length codes) (distances flat_input codes).
Proof.
  unfold distances. apply Forall_forall. intros r Hr.
  apply in_map_iff in Hr. destruct Hr as [x [Ex _]]. subst r.
  apply length_map.
Qed.

Lemma distances_length (flat_input codes : matrix T) :
  length (distances flat_input codes) = length flat_input.
Proof. unfold distances. apply length_map. Qed.

(** The indices [torch.argmin] returns: one per row, each the position of a
    codeword. *)
Lemma argmin_rows_spec (flat_input codes : matrix T) (indices : list nat) :
  argmin_rows (length codes) (distances flat_input codes) = Ok indices ->
  length indices = length flat_input /\
  Forall (fun k => (k < length codes)%nat) indices.
Proof.
  unfold argmin_rows.
  destruct (length codes =? 0)%nat; [ discriminate | ].
  intros E. split.
  - rewrite (map_result_length _ _ E). apply distances_length.
  - apply map_result_Forall2 in E.
    pose proof (distances_rows flat_input codes) as Hrows.
    induction E as [|r k rs ks Hk _ IH]; constructor.
    + inversion Hrows; subst. apply argmin_lt in Hk. lia.
    + apply IH. inversion Hrows; assumption.
Qed.

Lemma argmin_rows_total (flat_input codes : matrix T) :
  codes <> [] ->
  exists indices,
    argmin_rows (length codes) (distances flat_input codes) = Ok indices.
Proof.
  intros Hne. unfold argmin_rows.
  destruct codes as [|c cs]; [ congruence | ].
  simpl length. simpl Nat.eqb.
  apply map_result_total.
  pose proof (distances_rows flat_input (c :: cs)) as Hrows.
  eapply Forall_impl; [ | exact Hrows ].
  intros r Hr. apply argmin_total.
  destruct r; [ discriminate | congruence ].
Qed.

(** When the assignment step returns, and what it returns. *)
Lemma assign_inv (d : nat) (flat_input codes encodings : matrix T) :
  assign d flat_input codes = Ok encodings ->
  widths_ok d codes = true /\ codes <> [] /\
  exists indices,
    encodings = encode (length codes) indices /\
    length indices = length flat_input /\
    Forall (fun k => (k < length codes)%nat) indices.
Proof.
  unfold assign.
  destruct (widths_ok d codes); simpl; [ | discriminate ].
  destruct (argmin_rows (length codes) (distances flat_input codes))
    as [indices|e] eqn:E; [ | discriminate ].
  intros Eenc. inversion Eenc; subst encodings; clear Eenc.
  split; [ reflexivity | ]. split.
  - intros ->. discriminate.
  - exists indices. split; [ reflexivity | ].
    apply argmin_rows_spec. exact E.
Qed.

(** The encodings are the one-hot rows of the indices [argmin] returns,
    row by row. *)
Lemma assign_indices (d : nat) (flat_input codes encodings : matrix T) :
  assign d flat_input codes = Ok encodings ->
  exists indices,
    encodings = encode (length codes) indices /\
    Forall2 (fun row k => argmin row = Ok k)
            (distances flat_input codes) indices.
Proof.
  unfold assign.
  destruct (widths_ok d codes); simpl; [ | discriminate ].
  unfold argmin_rows.
  destruct (length codes =? 0)%nat; [ discriminate | ].
  destruct (map_result argmin (distances flat_input codes))
    as [indices|e] eqn:E; [ | discriminate ].
  intros Eenc. injection Eenc as <-.
  exists indices. split; [ reflexivity | ].
  apply map_result_Forall2. exact E.
Qed.

Lemma assign_total (d : nat) (flat_input codes : matrix T) :
  widths_ok d codes = true -> codes <> [] ->
  exists encodings, assign d flat_input codes = Ok encodings.
Proof.
  intros Hw Hne. unfold assign. rewrite Hw. simpl.
  destruct (argmin_rows_total flat_input Hne) as [indices E].
  rewrite E. eexists; reflexivity.
Qed.

Lemma assign_raises (d : nat) (flat_input codes : matrix T) :
  widths_ok d codes = false \/ codes = [] ->
  exists e, assign d flat_input codes = Raise e.
Proof.
  unfold assign. intros [Hw | Hnil].
  - rewrite Hw. eexists; reflexivity.
  - subst codes. simpl. eexists; reflexivity.
Qed.

Lemma one_hot_length (m k : nat) : length (one_hot (T := T) m k) = m.
Proof. unfold one_hot. rewrite length_map. apply length_seq. Qed.

Lemma one_hot_nth (m k j : nat) :
  nth j (one_hot (T := T) m k) s_zero =
  if ((j <? m) && (j =? k))%nat then s_one else s_zero.
Proof.
  unfold one_hot.
  set (f := fun j0 : nat => if (j0 =? k)%nat then s_one else s_zero).
  destruct (j <? m)%nat eqn:Ej.
  - apply Nat.ltb_lt in Ej.
    rewrite (nth_indep _ s_zero (f 0%nat))
      by (rewrite length_map, length_seq; exact Ej).
    rewrite map_nth. rewrite seq_nth by exact Ej. reflexivity.
  - apply Nat.ltb_ge in Ej. simpl.
    apply nth_overflow. rewrite length_map, length_seq. exact Ej.
Qed.

End Assignment.

(** ** Which codebooks a forward pass uses *)

Section ForwardSelection.
Context {T : Type} `{Scalar T} `{Transcendental T}.

Lemma quantize_total (d : nat) (cc : T) (inputs : tensor4 T)
    (flat_input codes : matrix T) :
  widths_ok d codes = true -> codes <> [] ->
  exists out, quantize d cc inputs flat_input codes = Ok out.
Proof.
  intros Hw Hne. unfold quantize.
  destruct (assign_total d flat_input Hw Hne) as [enc E].
  rewrite E. eexists; reflexivity.
Qed.

Lemma quantize_not_index_error (d : nat) (cc : T) (inputs : tensor4 T)
    (flat_input codes : matrix T) :
  quantize d cc inputs flat_input codes <> Raise InvalidIndex.
Proof.
  unfold quantize, assign.
  destruct (widths_ok d codes); simpl; [ | discriminate ].
  unfold argmin_rows.
  destruct (length codes =? 0)%nat; [ discriminate | ].
  destruct (map_result argmin (distances flat_input codes)) as [ks|e] eqn:E;
    [ discriminate | ].
  assert (He : e = EmptyReduction).
  { clear - E. revert e E.
    induction (distances flat_input codes) as [|r rs IH]; intros e; simpl.
    - discriminate.
    - destruct r as [|x r]; simpl.
      + intros E; inversion E; reflexivity.
      + destruct (map_result argmin rs) as [ks|e']; [ discriminate | ].
        intros E; inversion E; subst e'. apply IH. reflexivity. }
  subst e. discriminate.
Qed.

(** A forward pass returns when the features pass the reshape, the index
    resolves, and the selected codewords are of the right width and not
    empty. *)
Lemma forward_total (inputs : tensor4 T) (idx : Z) (ext : bool)
    (draw : nat -> nat -> T) (s s' : extVQ T) (flat_input codes : matrix T) :
  view_rows (_embedding_dim s) (permute_0231 inputs) = Ok flat_input ->
  select_codes idx (with_codebooks s (store_at_selection ext draw s))
    = (s', Ok codes) ->
  widths_ok (_embedding_dim s) codes = true -> codes <> [] ->
  exists out, forward inputs idx ext draw s = (s', Ok out).
Proof.
  intros Hview Hsel Hw Hne.
  rewrite forward_unfold, Hview, Hsel.
  destruct (quantize_total (_embedding_dim s) (_commitment_cost s)
              (permute_0231 inputs) flat_input Hw Hne) as [out E].
  exists out. rewrite E. reflexivity.
Qed.

(** What a forward pass fetches from the store, whether it returns or
    raises: nothing, entry 0, or entry 0 and then the entry [idx] resolves
    to; with [idx = 0] never more than entry 0. *)
Lemma forward_fetched (inputs : tensor4 T) (idx : Z) (ext : bool)
    (draw : nat -> nat -> T) (s : extVQ T) :
  let s' := fst (forward inputs idx ext draw s) in
  let store := store_at_selection ext draw s in
  fetched s' = fetched s \/
  fetched s' = fetched s ++ [0%nat] \/
  (idx <> 0%Z /\
   exists k, abs_index (length store) idx = Ok k /\
             fetched s' = fetched s ++ [0%nat; k]).
Proof.
  intros s' store. unfold s'. rewrite forward_unfold. fold store.
  destruct (view_rows (_embedding_dim s) (permute_0231 inputs)) as [flat|e];
    [ | left; reflexivity ].
  rewrite select_codes_spec. simpl codebooks.
  destruct (nth_error store 0) as [shared|]; [ | left; reflexivity ].
  destruct (idx =? 0)%Z eqn:Eidx; [ right; left; reflexivity | ].
  apply Z.eqb_neq in Eidx.
  destruct (abs_index (length store) idx) as [k|e] eqn:Ek;
    [ | right; left; reflexivity ].
  destruct (nth_error store k) as [extra|]; [ | right; left; reflexivity ].
  right. right. split; [ exact Eidx | ].
  exists k. split; [ reflexivity | ].
  simpl. rewrite <- app_assoc. reflexivity.
Qed.

(** C1.  Whether it returns or raises, a forward pass fetches from the store
    nothing but entry 0 and, when [idx = k > 0], entry [k].  A forward pass
    that returns has run the quantisation on the codewords [select_codes]
    picked: for [idx = 0] these are the weight of codebook 0, and entry 0 is
    the only entry fetched; for [idx = k > 0] they are the weight of
    codebook 0 followed by the weight of codebook [k], and entries 0 and [k]
    are the ones fetched, in that order. *)
Theorem forward_accessible_codewords (inputs : tensor4 T) (idx : Z) (ext : bool)
    (draw : nat -> nat -> T) (s s' : extVQ T) (r : result (tensor4 T * T * T)) :
  forward inputs idx ext draw s = (s', r) ->
  let store := store_at_selection ext draw s in
  (exists reads,
     fetched s' = fetched s ++ reads /\
     (idx = 0%Z -> forall k, In k reads -> k = 0%nat) /\
     ((0 < idx)%Z -> forall k, In k reads -> k = 0%nat \/ k = Z.to_nat idx)) /\
  (forall out, r = Ok out ->
   exists flat_input codes shared,
     view_rows (_embedding_dim s) (permute_0231 inputs) = Ok flat_input /\
     select_codes idx (with_codebooks s store) = (s', Ok codes) /\
     quantize (_embedding_dim s) (_commitment_cost s) (permute_0231 inputs)
              flat_input codes = Ok out /\
     nth_error store 0 = Some shared /\
     (idx = 0%Z -> codes = shared /\ fetched s' = fetched s ++ [0%nat]) /\
     ((0 < idx)%Z ->
      exists extra,
        nth_error store (Z.to_nat idx) = Some extra /\
        codes = shared ++ extra /\
        fetched s' = fetched s ++ [0%nat; Z.to_nat idx])).
Proof.
  intros Hfwd store. split.
  - pose proof (forward_fetched inputs idx ext draw s) as Hlog.
    rewrite Hfwd in Hlog. simpl in Hlog. fold store in Hlog.
    destruct Hlog as [Hlog | [Hlog | [Hne [k [Hk Hlog]]]]].
    + exists []. rewrite app_nil_r. split; [ exact Hlog | ].
      split; intros _ k [].
    + exists [0%nat]. split; [ exact Hlog | ].
      split; intros _ k [<- | []]; [ reflexivity | left; reflexivity ].
    + exists [0%nat; k]. split; [ exact Hlog | ].
      split; [ intros E; contradiction | ].
      intros Hpos k' [<- | [<- | []]]; [ left; reflexivity | right ].
      unfold abs_index in Hk.
      destruct ((- Z.of_nat (length store) <=? idx)%Z
                && (idx <? Z.of_nat (length store))%Z); [ | discriminate ].
      replace (idx <? 0)%Z with false in Hk by (symmetry; apply Z.ltb_ge; lia).
      inversion Hk. reflexivity.
  - intros out ->.
    rewrite forward_unfold in Hfwd.
    destruct (view_rows (_embedding_dim s) (permute_0231 inputs))
      as [flat|e]; [ | discriminate ].
    fold store in Hfwd.
    destruct (select_codes idx (with_codebooks s store))
      as [s1 [codes|e]] eqn:Hsel; [ | discriminate ].
    injection Hfwd as Hs Hq. subst s1.
    pose proof Hsel as Hspec. rewrite select_codes_spec in Hspec.
    simpl codebooks in Hspec.
    destruct (nth_error store 0) as [shared|] eqn:Hsh; [ | discriminate ].
    exists flat, codes, shared.
    repeat split; try assumption; try reflexivity.
    + subst idx. simpl in Hspec. inversion Hspec. reflexivity.
    + subst idx. simpl in Hspec. inversion Hspec. reflexivity.
    + intros Hpos.
      replace (idx =? 0)%Z with false in Hspec
        by (symmetry; apply Z.eqb_neq; lia).
      destruct (abs_index (length store) idx) as [k|e] eqn:Hk;
        [ | discriminate ].
      assert (Hk' : k = Z.to_nat idx).
      { unfold abs_index in Hk.
        destruct ((- Z.of_nat (length store) <=? idx)%Z
                  && (idx <? Z.of_nat (length store))%Z); [ | discriminate ].
        replace (idx <? 0)%Z with false in Hk
          by (symmetry; apply Z.ltb_ge; lia).
        inversion Hk. reflexivity. }
      subst k.
      destruct (nth_error store (Z.to_nat idx)) as [extra|]; [ | discriminate ].
      exists extra. inversion Hspec. repeat split.
      simpl. rewrite <- app_assoc. reflexivity.
Qed.

(** C10.  With [ext] false a forward pass leaves the list of codebooks as it
    was, whatever the features and the index and whether or not the call
    returns.  With [ext] true the one change is the append of a fresh
    codebook, made once the features have passed the reshape and before the
    codewords are selected: selection runs on the extended store. *)
Theorem forward_store_frame (inputs : tensor4 T) (idx : Z)
    (draw : nat -> nat -> T) (s : extVQ T) :
  let fresh := embedding (_num_embeddings s) (_embedding_dim s) draw in
  codebooks (fst (forward inputs idx false draw s)) = codebooks s /\
  length (codebooks (fst (forward inputs idx false draw s)))
    = length (codebooks s) /\
  codebooks (fst (forward inputs idx true draw s)) =
    match view_rows (_embedding_dim s) (permute_0231 inputs) with
    | Raise _ => codebooks s
    | Ok _ => codebooks s ++ [fresh]
    end /\
  forward inputs idx true draw s =
    match view_rows (_embedding_dim s) (permute_0231 inputs) with
    | Raise e => (s, Raise e)
    | Ok flat_input =>
        match select_codes idx (with_codebooks s (codebooks s ++ [fresh])) with
        | (s', Raise e) => (s', Raise e)
        | (s', Ok codes) =>
            (s', quantize (_embedding_dim s) (_commitment_cost s)
                          (permute_0231 inputs) flat_input codes)
        end
    end.
Proof.
  intros fresh.
  assert (Hfalse : codebooks (fst (forward inputs idx false draw s))
                   = codebooks s).
  { rewrite forward_codebooks.
    destruct (view_rows (_embedding_dim s) (permute_0231 inputs)); reflexivity. }
  split; [ exact Hfalse | ].
  split; [ rewrite Hfalse; reflexivity | ].
  split.
  - rewrite forward_codebooks. reflexivity.
  - rewrite forward_unfold. reflexivity.
Qed.

(** C4, as the code has it.  Let [L] be the length of the store when the
    codewords are selected (the length at the call, plus one when [ext] is
    set).  For features that pass the reshape, the forward pass raises
    [InvalidIndex] exactly when [idx] lies outside [-L, L); the list of
    codebooks it leaves behind is the store at selection, so it is the one
    of the call when [ext] is false.  An index in [-L, 0) counts from the
    end of the store and is accepted. *)
Theorem forward_index_error (inputs : tensor4 T) (idx : Z) (ext : bool)
    (draw : nat -> nat -> T) (s : extVQ T) (flat_input : matrix T) :
  view_rows (_embedding_dim s) (permute_0231 inputs) = Ok flat_input ->
  let store := store_at_selection ext draw s in
  let L := Z.of_nat (length store) in
  ((idx < - L \/ L <= idx)%Z ->
   exists s', forward inputs idx ext draw s = (s', Raise InvalidIndex) /\
              codebooks s' = store) /\
  ((- L <= idx < L)%Z ->
   snd (forward inputs idx ext draw s) <> Raise InvalidIndex) /\
  ((- L <= idx < 0)%Z ->
   exists s' shared extra,
     nth_error store 0 = Some shared /\
     nth_error store (Z.to_nat (idx + L)) = Some extra /\
     forward inputs idx ext draw s =
       (s', quantize (_embedding_dim s) (_commitment_cost s)
                     (permute_0231 inputs) flat_input (shared ++ extra))).
Proof.
  intros Hview store L.
  assert (Hunf := forward_unfold inputs idx ext draw s).
  rewrite Hview in Hunf. fold store in Hunf.
  rewrite select_codes_spec in Hunf. simpl codebooks in Hunf.
  split; [ | split ].
  - intros Hout.
    destruct (nth_error store 0) as [shared|] eqn:Hsh.
    + assert (Hlen : (0 < length store)%nat).
      { apply nth_error_Some. congruence. }
      replace (idx =? 0)%Z with false in Hunf
        by (symmetry; apply Z.eqb_neq; unfold L in Hout; lia).
      rewrite (@abs_index_out (length store) idx) in Hunf by exact Hout.
      eexists. split; [ exact Hunf | reflexivity ].
    + eexists. split; [ exact Hunf | reflexivity ].
  - intros Hin. rewrite Hunf.
    assert (Hlen : (0 < length store)%nat) by (unfold L in Hin; lia).
    destruct (nth_error store 0) as [shared|] eqn:Hsh;
      [ | apply nth_error_None in Hsh; lia ].
    destruct (idx =? 0)%Z.
    + apply quantize_not_index_error.
    + destruct (abs_index (length store) idx) as [k|e] eqn:Hk.
      * pose proof (abs_index_lt _ _ Hk) as Hlt.
        destruct (nth_error store k) as [extra|] eqn:Hx;
          [ apply quantize_not_index_error
          | apply nth_error_None in Hx; lia ].
      * destruct (Z_lt_ge_dec idx 0) as [Hneg|Hpos].
        -- rewrite abs_index_negative in Hk by (unfold L in Hin; lia).
           discriminate.
        -- rewrite abs_index_nonneg in Hk by (unfold L in Hin; lia).
           discriminate.
  - intros Hneg.
    assert (Hlen : (0 < length store)%nat) by (unfold L in Hneg; lia).
    destruct (nth_error store 0) as [shared|] eqn:Hsh;
      [ | apply nth_error_None in Hsh; lia ].
    replace (idx =? 0)%Z with false in Hunf
      by (symmetry; apply Z.eqb_neq; lia).
    rewrite abs_index_negative in Hunf by (unfold L in Hneg; lia).
    fold L in Hunf.
    destruct (nth_error store (Z.to_nat (idx + L))) as [extra|] eqn:Hx;
      [ | apply nth_error_None in Hx; unfold L in *; lia ].
    eexists _, shared, extra. repeat split. exact Hunf.
Qed.

End ForwardSelection.

(** ** Codebook operations of UEFL *)

Section StoreOperations.
Context {T : Type} `{Scalar T}.

Lemma list_set_length {A : Type} (k : nat) (a : A) (l : list A) :
  length (list_set k a l) = length l.
Proof.
  revert k. induction l as [|b l IH]; intros k; destruct k; simpl;
    try reflexivity.
  f_equal. apply IH.
Qed.

Lemma nth_error_list_set {A : Type} (k j : nat) (a : A) (l : list A) :
  (k < length l)%nat ->
  nth_error (list_set k a l) j =
  if (j =? k)%nat then Some a else nth_error l j.
Proof.
  revert k j. induction l as [|b l IH]; intros k j Hk; simpl in Hk.
  - lia.
  - destruct k, j; simpl; try reflexivity.
    apply IH. lia.
Qed.

Lemma set_weight_spec (k : nat) (w : matrix T) (s : extVQ T) :
  (k < length (codebooks s))%nat ->
  set_weight (Z.of_nat k) w s =
  (with_codebooks (log_fetch k s) (list_set k w (codebooks s)), Ok tt).
Proof.
  intros Hk. unfold set_weight.
  rewrite abs_index_nonneg by lia. rewrite Nat2Z.id. reflexivity.
Qed.

(** The loop of [load_codebooks] over the indices [a, a + n): it overwrites
    entry after entry and stops, raising, at the first index that the
    supplied list does not have. *)
Lemma load_loop_spec (supplied : list (matrix T)) (n a : nat) (s : extVQ T) :
  (a + n <= length (codebooks s))%nat ->
  length (codebooks (fst (load_loop supplied (seq a n) s)))
    = length (codebooks s) /\
  (forall j,
     nth_error (codebooks (fst (load_loop supplied (seq a n) s))) j =
     if ((a <=? j) && (j <? a + n) && (j <? length supplied))%nat
     then nth_error supplied j
     else nth_error (codebooks s) j) /\
  snd (load_loop supplied (seq a n) s) =
    if ((a + n <=? length supplied) || (n =? 0))%nat
    then Ok tt else Raise InvalidIndex.
Proof.
  revert a s. induction n as [|n IH]; intros a s Hlen.
  - simpl. repeat split.
    + intros j. nat_cases.
    + rewrite orb_true_r. reflexivity.
  - simpl seq. simpl load_loop. unfold bind, lift, py_index.
    destruct (nth_error supplied a) as [w|] eqn:Ew.
    + assert (Ha : (a < length supplied)%nat)
        by (apply nth_error_Some; congruence).
      rewrite set_weight_spec by lia.
      set (s1 := with_codebooks (log_fetch a s) (list_set a w (codebooks s))).
      assert (Hs1 : codebooks s1 = list_set a w (codebooks s)) by reflexivity.
      destruct (IH (S a) s1) as [IH1 [IH2 IH3]].
      { rewrite Hs1, list_set_length. lia. }
      split; [ | split ].
      * rewrite IH1, Hs1. apply list_set_length.
      * intros j. rewrite IH2, Hs1.
        rewrite nth_error_list_set by lia.
        destruct (Nat.eq_dec j a) as [->|Hja].
        -- rewrite Nat.eqb_refl. rewrite <- Ew. nat_cases.
        -- replace (j =? a)%nat with false
             by (symmetry; apply Nat.eqb_neq; exact Hja).
           nat_cases.
      * rewrite IH3. nat_cases.
    + assert (Ha : (length supplied <= a)%nat) by (apply nth_error_None; exact Ew).
      simpl. repeat split.
      * intros j. nat_cases.
      * nat_cases.
Qed.

End StoreOperations.

Section UEFLProperties.
Context {T : Type} `{Scalar T}.

(** C3, as the code has it.  [load_codebooks] checks no length.  It walks
    the indices of the store: when the supplied list is at least as long as
    the store the call returns and every codebook holds the supplied matrix
    of its index (entries beyond the store are ignored; with equal lengths
    the store is the supplied list); when the supplied list is shorter the
    call raises [InvalidIndex] at the first missing index, after it has
    overwritten the codebooks before that index. *)
Theorem load_codebooks_spec (supplied : list (matrix T)) (u : UEFL T) :
  let store := codebooks (discretizer u) in
  let u' := fst (load_codebooks supplied u) in
  length (codebooks (discretizer u')) = length store /\
  ((length store <= length supplied)%nat ->
   snd (load_codebooks supplied u) = Ok tt /\
   codebooks (discretizer u') = firstn (length store) supplied) /\
  (length supplied = length store ->
   snd (load_codebooks supplied u) = Ok tt /\
   codebooks (discretizer u') = supplied) /\
  ((length supplied < length store)%nat ->
   snd (load_codebooks supplied u) = Raise InvalidIndex /\
   codebooks (discretizer u') =
     supplied ++ skipn (length supplied) store).
Proof.
  intros store u'.
  destruct (load_loop_spec supplied (length store) 0 (discretizer u))
    as [Hlen [Hnth Hres]]; [ fold store; lia | ].
  assert (Hfst : codebooks (discretizer u') =
                 codebooks (fst (load_loop supplied (seq 0 (length store))
                                           (discretizer u)))).
  { unfold u', load_codebooks, on_discretizer. fold store.
    destruct (load_loop supplied (seq 0 (length store)) (discretizer u));
      reflexivity. }
  assert (Hsnd : snd (load_codebooks supplied u) =
                 snd (load_loop supplied (seq 0 (length store))
                                (discretizer u))).
  { unfold load_codebooks, on_discretizer. fold store.
    destruct (load_loop supplied (seq 0 (length store)) (discretizer u));
      reflexivity. }
  rewrite Hfst, Hsnd, Hres. clear Hfst Hsnd Hres.
  assert (Hlong : (length store <= length supplied)%nat ->
                  codebooks (fst (load_loop supplied (seq 0 (length store))
                                            (discretizer u)))
                  = firstn (length store) supplied).
  { intros Hle. apply nth_error_ext. intros j.
    rewrite Hnth, nth_error_firstn. fold store.
    nat_cases; apply nth_error_None; lia. }
  split; [ exact Hlen | ]. split; [ | split ].
  - intros Hle. split; [ nat_cases | apply Hlong; exact Hle ].
  - intros Heq. split; [ nat_cases | ].
    rewrite Hlong by lia. rewrite <- Heq. apply firstn_all.
  - intros Hlt. split; [ nat_cases | ].
    apply nth_error_ext. intros j.
    rewrite Hnth, nth_error_app, nth_error_skipn. fold store.
    nat_cases; f_equal; lia.
Qed.

Lemma embedding_shape (n d : nat) (draw : nat -> nat -> T) :
  has_shape n d (embedding n d draw).
Proof.
  unfold has_shape, embedding. split.
  - rewrite length_map. apply length_seq.
  - apply Forall_forall. intros r Hr.
    apply in_map_iff in Hr. destruct Hr as [i [Ei _]]. subst r.
    rewrite length_map. apply length_seq.
Qed.

Lemma extend_codebooks_step (iteration : Z) (draw : nat -> nat -> T)
    (u : UEFL T) :
  snd (extend_codebooks iteration draw u) = Ok tt /\
  num_embeddings (fst (extend_codebooks iteration draw u)) = num_embeddings u /\
  dim (fst (extend_codebooks iteration draw u)) = dim u /\
  codebooks (discretizer (fst (extend_codebooks iteration draw u))) =
    if (1 <? iteration)%Z
    then codebooks (discretizer u)
           ++ [embedding (num_embeddings u) (dim u) draw]
    else codebooks (discretizer u).
Proof.
  unfold extend_codebooks, on_discretizer, append_codebook, ret.
  destruct (1 <? iteration)%Z; simpl; repeat split.
Qed.

Lemma extend_many_spec (calls : list (Z * (nat -> nat -> T))) (u : UEFL T) :
  num_embeddings (extend_many calls u) = num_embeddings u /\
  dim (extend_many calls u) = dim u /\
  exists added,
    codebooks (discretizer (extend_many calls u)) =
      codebooks (discretizer u) ++ added /\
    length added = length (filter (fun c => (1 <? fst c)%Z) calls) /\
    Forall (has_shape (num_embeddings u) (dim u)) added.
Proof.
  revert u. induction calls as [|[iteration draw] calls IH]; intros u.
  - simpl. repeat split. exists []. rewrite app_nil_r. repeat split.
    constructor.
  - simpl extend_many.
    destruct (extend_codebooks_step iteration draw u) as [_ [Hn [Hd Hcb]]].
    destruct (IH (fst (extend_codebooks iteration draw u)))
      as [IHn [IHd [added [IHcb [IHlen IHshape]]]]].
    change (fold_left _ calls ?v) with (extend_many calls v).
    rewrite IHn, IHd, Hn, Hd. repeat split.
    rewrite IHcb, Hcb. simpl filter. simpl fst.
    rewrite Hn, Hd in IHshape.
    destruct (1 <? iteration)%Z.
    + exists (embedding (num_embeddings u) (dim u) draw :: added).
      rewrite <- app_assoc. simpl. repeat split.
      * f_equal. exact IHlen.
      * constructor; [ apply embedding_shape | exact IHshape ].
    + exists added. repeat split; assumption.
Qed.

(** C8, as the code has it.  [extend_codebooks(iteration)] appends only
    when [iteration > 1].  Starting from the two codebooks of the
    constructor, a run of calls leaves the original codebooks in place,
    followed by one new codebook per call with [iteration > 1], each of
    shape [num_embeddings x dim]; so [k] calls that all have
    [iteration > 1] give [2 + k] codebooks, a call with [iteration <= 1]
    changes nothing, and the store never has fewer than two. *)
Theorem extend_codebooks_size (calls : list (Z * (nat -> nat -> T)))
    (num_codes codeword_dim : nat) (draw_embed draw_backup : nat -> nat -> T) :
  let u0 := UEFL_init num_codes codeword_dim draw_embed draw_backup in
  let store := codebooks (discretizer (extend_many calls u0)) in
  let appending := filter (fun c => (1 <? fst c)%Z) calls in
  length (codebooks (discretizer u0)) = 2%nat /\
  length store = (2 + length appending)%nat /\
  (forallb (fun c => (1 <? fst c)%Z) calls = true ->
   length store = (2 + length calls)%nat) /\
  (2 <= length store)%nat /\
  (exists added,
     store = codebooks (discretizer u0) ++ added /\
     Forall (has_shape num_codes codeword_dim) added) /\
  (forall (iteration : Z) (draw : nat -> nat -> T) (u : UEFL T),
     (iteration <= 1)%Z -> fst (extend_codebooks iteration draw u) = u) /\
  (forall (iteration : Z) (draw : nat -> nat -> T) (u : UEFL T),
     (1 < iteration)%Z ->
     codebooks (discretizer (fst (extend_codebooks iteration draw u))) =
       codebooks (discretizer u) ++ [embedding (num_embeddings u) (dim u) draw]).
Proof.
  intros u0 store appending.
  destruct (extend_many_spec calls u0) as [_ [_ [added [Hcb [Hlen Hshape]]]]].
  assert (Hsize : length store = (2 + length appending)%nat).
  { unfold store. rewrite Hcb, length_app, Hlen. reflexivity. }
  split; [ reflexivity | ].
  split; [ exact Hsize | ].
  split; [ | split; [ | split; [ | split ] ] ].
  - intros Hall. rewrite Hsize. f_equal. unfold appending.
    clear - Hall. induction calls as [|c calls IH]; simpl in *.
    + reflexivity.
    + apply andb_true_iff in Hall. destruct Hall as [Hc Hall].
      rewrite Hc. simpl. f_equal. apply IH. exact Hall.
  - lia.
  - exists added. split; [ exact Hcb | exact Hshape ].
  - intros iteration draw u Hle. unfold extend_codebooks.
    replace (1 <? iteration)%Z with false
      by (symmetry; apply Z.ltb_ge; exact Hle).
    reflexivity.
  - intros iteration draw u Hlt.
    destruct (extend_codebooks_step iteration draw u) as [_ [_ [_ Hcb']]].
    rewrite Hcb'.
    replace (1 <? iteration)%Z with true
      by (symmetry; apply Z.ltb_lt; exact Hlt).
    reflexivity.
Qed.


End UEFLProperties.

(** ** Tensor layout *)

Unset Implicit Arguments.

Section Tabulate.
Context {A : Type}.

Lemma flat_map_ext_in {B : Type} (f g : B -> list A) (l : list B) :
  (forall b, In b l -> f b = g b) -> flat_map f l = flat_map g l.
Proof.
  induction l as [|b l IH]; intros Hfg; simpl.
  - reflexivity.
  - rewrite (Hfg b) by (left; reflexivity).
    rewrite IH; [ reflexivity | ].
    intros b' Hb'. apply Hfg. right. exact Hb'.
Qed.

Lemma flat_map_seq_S {B : Type} (f : nat -> list B) (n : nat) :
  flat_map f (seq 0 (S n)) = flat_map f (seq 0 n) ++ f n.
Proof.
  rewrite seq_S, flat_map_app. simpl. rewrite app_nil_r. reflexivity.
Qed.

Lemma flat_map_seq_length (g : nat -> list A) (m n : nat) :
  (forall i, (i < n)%nat -> length (g i) = m) ->
  length (flat_map g (seq 0 n)) = (n * m)%nat.
Proof.
  induction n as [|n IH]; intros Hg.
  - reflexivity.
  - rewrite flat_map_seq_S, length_app, IH, Hg by (intros; auto with arith).
    lia.
Qed.

Lemma tabulate4_length (n0 n1 n2 n3 : nat) (f : nat -> nat -> nat -> nat -> A) :
  length (tabulate4 n0 n1 n2 n3 f) = (n0 * n1 * n2 * n3)%nat.
Proof.
  unfold tabulate4.
  rewrite (flat_map_seq_length _ (n1 * n2 * n3)); [ lia | ].
  intros a _.
  rewrite (flat_map_seq_length _ (n2 * n3)); [ lia | ].
  intros b _.
  rewrite (flat_map_seq_length _ n3); [ lia | ].
  intros c _. rewrite length_map. apply length_seq.
Qed.

Lemma nth_flat_map_seq (g : nat -> list A) (m n i j : nat) (d : A) :
  (forall k, (k < n)%nat -> length (g k) = m) ->
  (i < n)%nat -> (j < m)%nat ->
  nth (i * m + j) (flat_map g (seq 0 n)) d = nth j (g i) d.
Proof.
  induction n as [|n IH]; intros Hg Hi Hj.
  - lia.
  - rewrite flat_map_seq_S.
    assert (Hlen : length (flat_map g (seq 0 n)) = (n * m)%nat).
    { apply flat_map_seq_length. intros; apply Hg; lia. }
    destruct (Nat.eq_dec i n) as [->|Hne].
    + rewrite app_nth2 by (rewrite Hlen; lia).
      rewrite Hlen. f_equal. lia.
    + rewrite app_nth1 by (rewrite Hlen; nia).
      apply IH; [ intros; apply Hg; lia | lia | exact Hj ].
Qed.

Lemma tabulate4_nth (n0 n1 n2 n3 : nat) (f : nat -> nat -> nat -> nat -> A)
    (a b c d : nat) (dflt : A) :
  (a < n0)%nat -> (b < n1)%nat -> (c < n2)%nat -> (d < n3)%nat ->
  nth (offset4 n1 n2 n3 a b c d) (tabulate4 n0 n1 n2 n3 f) dflt = f a b c d.
Proof.
  intros Ha Hb Hc Hd. unfold tabulate4, offset4.
  replace (((a * n1 + b) * n2 + c) * n3 + d)%nat
    with (a * (n1 * n2 * n3) + (b * (n2 * n3) + (c * n3 + d)))%nat by ring.
  assert (H3 : (c * n3 + d < n2 * n3)%nat).
  { assert ((c + 1) * n3 <= n2 * n3)%nat by (apply Nat.mul_le_mono_r; lia). lia. }
  assert (H2 : (b * (n2 * n3) + (c * n3 + d) < n1 * n2 * n3)%nat).
  { assert ((b + 1) * (n2 * n3) <= n1 * (n2 * n3))%nat
      by (apply Nat.mul_le_mono_r; lia). lia. }
  rewrite nth_flat_map_seq; [ | | exact Ha | exact H2 ].
  - rewrite nth_flat_map_seq; [ | | exact Hb | exact H3 ].
    + rewrite nth_flat_map_seq; [ | | exact Hc | exact Hd ].
      * rewrite (nth_indep _ dflt (f a b c 0%nat))
          by (rewrite length_map, length_seq; exact Hd).
        rewrite (map_nth (fun d0 => f a b c d0)).
        rewrite seq_nth by exact Hd. reflexivity.
      * intros k _. rewrite length_map. apply length_seq.
    + intros k _. apply flat_map_seq_length.
      intros k' _. rewrite length_map. apply length_seq.
  - intros k _.
    rewrite (flat_map_seq_length _ (n2 * n3)); [ lia | ].
    intros k' _. apply flat_map_seq_length.
    intros k'' _. rewrite length_map. apply length_seq.
Qed.

Lemma firstn_plus (a b : nat) (l : list A) :
  firstn a l ++ firstn b (skipn a l) = firstn (a + b) l.
Proof.
  revert l. induction a as [|a IH]; intros l; simpl.
  - reflexivity.
  - destruct l as [|x l]; simpl.
    + rewrite firstn_nil. reflexivity.
    + f_equal. apply IH.
Qed.

Lemma map_nth_seq (l : list A) (base m : nat) (d : A) :
  (base + m <= length l)%nat ->
  map (fun j => nth (base + j) l d) (seq 0 m) = firstn m (skipn base l).
Proof.
  revert base. induction m as [|m IH]; intros base Hlen.
  - reflexivity.
  - rewrite seq_S, map_app, IH by lia.
    replace (firstn (S m) (skipn base l))
      with (firstn (m + 1) (skipn base l)) by (f_equal; lia).
    rewrite <- firstn_plus. f_equal.
    rewrite skipn_skipn. simpl map.
    replace (m + base)%nat with (base + m)%nat by lia.
    assert (Hlt : (base + m < length l)%nat) by lia.
    clear - Hlt. revert Hlt. generalize (base + m)%nat as k. intros k.
    revert l. induction k as [|k IHk]; intros l Hlt.
    + destruct l; simpl in *; [ lia | reflexivity ].
    + destruct l; simpl in *; [ lia | apply IHk; lia ].
Qed.

Lemma flat_map_blocks (l : list A) (base m n : nat) :
  flat_map (fun i => firstn m (skipn (base + i * m) l)) (seq 0 n)
  = firstn (n * m) (skipn base l).
Proof.
  induction n as [|n IH].
  - reflexivity.
  - rewrite flat_map_seq_S, IH.
    replace (S n * m)%nat with (n * m + m)%nat by lia.
    rewrite <- firstn_plus. f_equal.
    rewrite skipn_skipn. f_equal. f_equal. lia.
Qed.

Lemma tabulate4_offsets (n0 n1 n2 n3 : nat) (l : list A) (dflt : A) :
  length l = (n0 * n1 * n2 * n3)%nat ->
  tabulate4 n0 n1 n2 n3 (fun a b c d => nth (offset4 n1 n2 n3 a b c d) l dflt)
  = l.
Proof.
  intros Hlen. unfold tabulate4, offset4.
  rewrite (flat_map_ext_in _
    (fun a => firstn (n1 * n2 * n3) (skipn (0 + a * (n1 * n2 * n3)) l))).
  - rewrite flat_map_blocks. simpl skipn.
    apply firstn_all2. lia.
  - intros a Ha. apply in_seq in Ha.
    rewrite (flat_map_ext_in _
      (fun b => firstn (n2 * n3)
                  (skipn (a * (n1 * n2 * n3) + b * (n2 * n3)) l))).
    + rewrite flat_map_blocks. f_equal. lia.
    + intros b Hb. apply in_seq in Hb.
      rewrite (flat_map_ext_in _
        (fun c => firstn n3
                    (skipn ((a * (n1 * n2 * n3) + b * (n2 * n3)) + c * n3) l))).
      * rewrite flat_map_blocks. reflexivity.
      * intros c Hc. apply in_seq in Hc.
        assert (Hc' : ((c + 1) * n3 <= n2 * n3)%nat)
          by (apply Nat.mul_le_mono_r; lia).
        assert (Hb' : ((b + 1) * (n2 * n3) <= n1 * (n2 * n3))%nat)
          by (apply Nat.mul_le_mono_r; lia).
        assert (Ha' : ((a + 1) * (n1 * (n2 * n3)) <= n0 * (n1 * (n2 * n3)))%nat)
          by (apply Nat.mul_le_mono_r; lia).
        rewrite <- map_nth_seq with (d := dflt) by lia.
        apply map_ext. intros d. f_equal. ring.
Qed.

Lemma tabulate4_ext (n0 n1 n2 n3 : nat) (f g : nat -> nat -> nat -> nat -> A) :
  (forall a b c d, (a < n0)%nat -> (b < n1)%nat -> (c < n2)%nat -> (d < n3)%nat ->
                   f a b c d = g a b c d) ->
  tabulate4 n0 n1 n2 n3 f = tabulate4 n0 n1 n2 n3 g.
Proof.
  intros Hfg. unfold tabulate4.
  apply flat_map_ext_in. intros a Ha. apply in_seq in Ha.
  apply flat_map_ext_in. intros b Hb. apply in_seq in Hb.
  apply flat_map_ext_in. intros c Hc. apply in_seq in Hc.
  apply map_ext_in. intros d Hd. apply in_seq in Hd.
  apply Hfg; lia.
Qed.


End Tabulate.

Set Implicit Arguments.

Section Layout.
Context {T : Type} `{Scalar T}.

Lemma permute_0231_length (x : tensor4 T) :
  length (t_data (permute_0231 x)) = numel x.
Proof.
  unfold permute_0231, numel.
  destruct (t_shape x) as [[[nb nc] nh] nw]. simpl.
  rewrite tabulate4_length. ring.
Qed.

Lemma permute_0231_shape (x : tensor4 T) :
  t_shape (permute_0231 x) =
  let '(nb, nc, nh, nw) := t_shape x in (nb, nh, nw, nc).
Proof.
  unfold permute_0231. destruct (t_shape x) as [[[nb nc] nh] nw]. reflexivity.
Qed.

(** Permuting to channels-last and back gives the tensor back. *)
Lemma permute_roundtrip (x : tensor4 T) :
  wf_tensor x -> permute_0312 (permute_0231 x) = x.
Proof.
  unfold wf_tensor, numel, permute_0231.
  destruct x as [[[[nb nc] nh] nw] data]. simpl. intros Hlen.
  unfold permute_0312. simpl. f_equal.
  transitivity
    (tabulate4 nb nc nh nw
       (fun b c h w => nth (offset4 nc nh nw b c h w) data s_zero)).
  - apply tabulate4_ext. intros b c h w Hb Hc Hh Hw.
    rewrite tabulate4_nth by assumption. reflexivity.
  - apply tabulate4_offsets. exact Hlen.
Qed.

End Layout.



(** ** Sums of real tensors and the one-hot encodings *)

Section RealSums.
Local Open Scope R_scope.

Lemma tsum_cons (x : R) (l : list R) : tsum (x :: l) = x + tsum l.
Proof. reflexivity. Qed.

Lemma tsum_app (a b : list R) : tsum (a ++ b) = tsum a + tsum b.
Proof.
  induction a as [|x a IH]; simpl.
  - change (tsum b = 0 + tsum b). lra.
  - rewrite !tsum_cons, IH. lra.
Qed.

(** A one-hot row sums to one. *)
Lemma tsum_indicator (k m a : nat) :
  tsum (map (fun j => if (j =? k)%nat then 1 else 0) (seq a m)) =
  if ((a <=? k) && (k <? a + m))%nat then 1 else 0.
Proof.
  revert a. induction m as [|m IH]; intros a.
  - simpl. nat_cases.
  - simpl seq. simpl map. rewrite tsum_cons, IH.
    nat_cases; lra.
Qed.

Lemma tsum_one_hot (m k : nat) :
  (k < m)%nat -> tsum (one_hot (T := R) m k) = 1.
Proof.
  intros Hk. unfold one_hot.
  change (tsum (map (fun j => if (j =? k)%nat then 1 else 0) (seq 0 m)) = 1).
  rewrite tsum_indicator. nat_cases.
Qed.

Lemma tsum_encode (m : nat) (indices : list nat) :
  Forall (fun k => (k < m)%nat) indices ->
  tsum (concat (encode (T := R) m indices)) = INR (length indices).
Proof.
  induction 1 as [|k ks Hk _ IH].
  - reflexivity.
  - simpl encode. simpl concat. rewrite tsum_app, IH, tsum_one_hot by exact Hk.
    change (length (k :: ks)) with (S (length ks)). rewrite S_INR. lra.
Qed.

End RealSums.

Section ArgminReal.
Local Open Scope R_scope.

Lemma Rltb_spec (x y : R) : Rltb x y = true <-> x < y.
Proof.
  unfold Rltb. destruct (Rlt_dec x y); split; intros; try assumption;
    try reflexivity; try discriminate; contradiction.
Qed.

(** The scan keeps the first position of the least value seen so far. *)
Lemma argmin_from_first_minimum (pre l : list R) (best : R) (bi : nat) :
  (bi < length pre)%nat -> nth bi pre 0 = best ->
  (forall j, (j < length pre)%nat -> best <= nth j pre 0) ->
  (forall j, (j < bi)%nat -> best < nth j pre 0) ->
  let k := argmin_from best bi (length pre) l in
  (k < length (pre ++ l))%nat /\
  (forall j, (j < length (pre ++ l))%nat ->
             nth k (pre ++ l) 0 <= nth j (pre ++ l) 0) /\
  (forall j, (j < k)%nat -> nth k (pre ++ l) 0 < nth j (pre ++ l) 0).
Proof.
  revert pre best bi. induction l as [|x l IH]; intros pre best bi Hbi Hbest Hle Hlt.
  - simpl. rewrite app_nil_r. repeat split.
    + exact Hbi.
    + intros j Hj. rewrite Hbest. apply Hle. exact Hj.
    + intros j Hj. rewrite Hbest. apply Hlt. exact Hj.
  - simpl argmin_from.
    replace (pre ++ x :: l) with ((pre ++ [x]) ++ l)
      by (rewrite <- app_assoc; reflexivity).
    replace (S (length pre)) with (length (pre ++ [x]))
      by (rewrite length_app; simpl; lia).
    assert (Hnth_old : forall j, (j < length pre)%nat ->
                                 nth j (pre ++ [x]) 0 = nth j pre 0).
    { intros j Hj. apply app_nth1. exact Hj. }
    assert (Hnth_new : nth (length pre) (pre ++ [x]) 0 = x).
    { rewrite app_nth2 by lia. rewrite Nat.sub_diag. reflexivity. }
    assert (Hcases : forall j, (j < length (pre ++ [x]))%nat ->
                               (j < length pre)%nat \/ j = length pre).
    { intros j Hj. rewrite length_app in Hj. simpl in Hj. lia. }
    change (@s_ltb R R_scalar x best) with (Rltb x best).
    destruct (Rltb x best) eqn:E.
    + apply Rltb_spec in E.
      apply IH.
      * rewrite length_app. simpl. lia.
      * exact Hnth_new.
      * intros j Hj. destruct (Hcases j Hj) as [Hold | ->].
        -- rewrite Hnth_old by exact Hold. specialize (Hle j Hold). lra.
        -- rewrite Hnth_new. lra.
      * intros j Hj. rewrite Hnth_old by exact Hj. specialize (Hle j Hj). lra.
    + assert (Hge : best <= x).
      { destruct (Rle_or_lt best x) as [H|H]; [ exact H | ].
        apply Rltb_spec in H. congruence. }
      apply IH.
      * rewrite length_app. simpl. lia.
      * rewrite Hnth_old by exact Hbi. exact Hbest.
      * intros j Hj. destruct (Hcases j Hj) as [Hold | ->].
        -- rewrite Hnth_old by exact Hold. apply Hle. exact Hold.
        -- rewrite Hnth_new. exact Hge.
      * intros j Hj. rewrite Hnth_old by lia. apply Hlt. exact Hj.
Qed.

(** [torch.argmin] on a row of reals: the position of a least entry, and
    the first such position. *)
Lemma argmin_first_minimum (l : list R) (k : nat) :
  argmin l = Ok k ->
  (k < length l)%nat /\
  (forall j, (j < length l)%nat -> nth k l 0 <= nth j l 0) /\
  (forall j, (j < k)%nat -> nth k l 0 < nth j l 0).
Proof.
  destruct l as [|x l]; simpl; [ discriminate | ].
  intros E. injection E as <-.
  apply (argmin_from_first_minimum [x] l (best := x) (bi := 0)).
  - simpl. lia.
  - reflexivity.
  - intros j Hj. simpl in Hj. replace j with 0%nat by lia. simpl. lra.
  - intros j Hj. lia.
Qed.

End ArgminReal.

Section AssignmentReal.
Local Open Scope R_scope.

(** C5.  Whenever the codewords are of the right width and not empty, the
    assignment step returns, and what it returns has one row per flattened
    feature row; each row has one column per codeword, holds 1 in exactly
    one column and 0 in every other, and so sums to 1; the entries of the
    whole matrix sum to the number of flattened feature rows.  The column
    holding the 1 is that of the nearest codeword, the first one on ties. *)
Theorem assign_one_hot (d : nat) (flat_input codes : matrix R) :
  (widths_ok d codes = true -> codes <> [] ->
   exists encodings, assign d flat_input codes = Ok encodings) /\
  (forall encodings,
     assign d flat_input codes = Ok encodings ->
     length encodings = length flat_input /\
     Forall (fun row =>
               length row = length codes /\
               exists k, (k < length codes)%nat /\
                         nth k row 0 = 1 /\
                         (forall j, nth j row 0 = 1 -> j = k) /\
                         (forall j, j <> k -> nth j row 0 = 0))
            encodings /\
     tsum (concat encodings) = INR (length flat_input) /\
     Forall2 (fun dist row =>
                exists k, row = one_hot (length codes) k /\
                          (forall j, (j < length dist)%nat ->
                                     nth k dist 0 <= nth j dist 0) /\
                          (forall j, (j < k)%nat -> nth k dist 0 < nth j dist 0))
             (distances flat_input codes) encodings).
Proof.
  split; [ apply assign_total | ].
  intros encodings Hassign.
  destruct (assign_inv _ _ _ Hassign)
    as [_ [_ [indices [Henc [Hlen Hrange]]]]].
  destruct (assign_indices _ _ _ Hassign) as [indices' [Henc' Hargmin]].
  subst encodings. split; [ | split; [ | split ] ].
  - unfold encode. rewrite length_map. exact Hlen.
  - unfold encode. apply Forall_forall. intros row Hrow.
    apply in_map_iff in Hrow. destruct Hrow as [k [Ek Hk]]. subst row.
    rewrite Forall_forall in Hrange. specialize (Hrange k Hk).
    split; [ apply one_hot_length | ].
    assert (Hnth : forall j, nth j (one_hot (T := R) (length codes) k) 0 =
                             if ((j <? length codes) && (j =? k))%nat
                             then 1 else 0).
    { intros j. exact (one_hot_nth (T := R) (length codes) k j). }
    exists k. split; [ exact Hrange | ]. split; [ | split ].
    + rewrite Hnth. nat_cases.
    + intros j. rewrite Hnth. nat_cases; intros; lra.
    + intros j Hj. rewrite Hnth. nat_cases.
  - rewrite <- Hlen. apply tsum_encode. exact Hrange.
  - rewrite Henc'. clear - Hargmin. unfold encode.
    induction Hargmin as [|dist k dists ks Hk _ IH]; simpl; constructor.
    + exists k. split; [ reflexivity | ].
      destruct (argmin_first_minimum _ Hk) as [_ [Hmin Hfirst]].
      split; assumption.
    + exact IH.
Qed.

End AssignmentReal.

Section ColumnSums.
Local Open Scope R_scope.


End ColumnSums.

(** ** Reshaping, and the forward pass step by step *)

Section Reshape.
Context {T : Type} `{Scalar T}.

Lemma chunks_length (d n : nat) (l : list T) : length (chunks d n l) = n.
Proof.
  revert l. induction n as [|n IH]; intros l; simpl; [ reflexivity | ].
  f_equal. apply IH.
Qed.


Lemma chunks_widths (d n : nat) (l : list T) :
  (n * d <= length l)%nat -> Forall (fun r => length r = d) (chunks d n l).
Proof.
  revert l. induction n as [|n IH]; intros l Hlen; simpl.
  - constructor.
  - constructor.
    + apply firstn_length_le. simpl in Hlen. lia.
    + apply IH. rewrite length_skipn. simpl in Hlen. lia.
Qed.


End Reshape.

Section QuantizeSteps.
Context {T : Type} `{Scalar T} `{Transcendental T}.

Lemma quantize_inv (d : nat) (cc : T) (inputs : tensor4 T)
    (flat_input codes : matrix T) (out : tensor4 T * T * T) :
  quantize d cc inputs flat_input codes = Ok out ->
  exists encodings,
    assign d flat_input codes = Ok encodings /\
    out = (permute_0312
             (straight_through inputs
                (quantized_raw d (t_shape inputs) encodings codes)),
           vq_loss cc inputs (quantized_raw d (t_shape inputs) encodings codes),
           perplexity (length codes) encodings).
Proof.
  unfold quantize.
  destruct (assign d flat_input codes) as [enc|e]; [ | discriminate ].
  intros E. inversion E. exists enc. split; reflexivity.
Qed.

(** A forward pass that returns, step by step. *)
Lemma forward_inv (inputs : tensor4 T) (idx : Z) (ext : bool)
    (draw : nat -> nat -> T) (s s' : extVQ T) (out : tensor4 T * T * T) :
  forward inputs idx ext draw s = (s', Ok out) ->
  exists flat_input codes encodings,
    view_rows (_embedding_dim s) (permute_0231 inputs) = Ok flat_input /\
    select_codes idx (with_codebooks s (store_at_selection ext draw s))
      = (s', Ok codes) /\
    assign (_embedding_dim s) flat_input codes = Ok encodings /\
    let x := permute_0231 inputs in
    let quantized :=
      quantized_raw (_embedding_dim s) (t_shape x) encodings codes in
    out = (permute_0312 (straight_through x quantized),
           vq_loss (_commitment_cost s) x quantized,
           perplexity (length codes) encodings).
Proof.
  intros Hfwd. rewrite forward_unfold in Hfwd.
  destruct (view_rows (_embedding_dim s) (permute_0231 inputs))
    as [flat|e]; [ | discriminate ].
  destruct (select_codes idx _) as [s1 [codes|e]] eqn:Hsel; [ | discriminate ].
  injection Hfwd as Hs Hq. subst s1.
  destruct (quantize_inv _ _ _ _ _ Hq) as [enc [Hassign Hout]].
  exists flat, codes, enc. repeat split; assumption.
Qed.

End QuantizeSteps.

(** ** The straight-through output *)

Section StraightThrough.
Local Open Scope R_scope.










End StraightThrough.

(** ** The embedding run on small inputs *)

Section Runs.
Local Open Scope Q_scope.

(** On a tie [argmin] returns the first position of the minimum. *)
Example argmin_tie : argmin [3; 1; 1; 5] = Ok 1%nat.
Proof. reflexivity. Qed.

Example argmin_empty : argmin ([] : list Q) = Raise EmptyReduction.
Proof. reflexivity. Qed.

Example distances_run :
  distances [[1; 1]; [5; 5]; [0; 0]] [[0; 0]; [4; 4]; [1; 1]]
  = [[2; 18; 0]; [50; 2; 32]; [0; 32; 2]].
Proof. reflexivity. Qed.

Example assign_run :
  assign 2 [[1; 1]; [5; 5]; [0; 0]] [[0; 0]; [4; 4]; [1; 1]]
  = Ok [[0; 0; 1]; [0; 1; 0]; [1; 0; 0]].
Proof. reflexivity. Qed.

Example assign_wrong_width :
  assign 3 [[1; 1; 1]] [[0; 0]; [4; 4]] = Raise ShapeMismatch.
Proof. reflexivity. Qed.

Example matmul_selects_codeword :
  matmul 2 [[0; 1; 0]] [[0; 0]; [4; 4]; [1; 1]] = [[4; 4]].
Proof. reflexivity. Qed.

(** Channels-first data 1..12 of shape 1 x 2 x 2 x 3, and its channels-last
    layout. *)
Example permute_0231_run :
  permute_0231 (mkTensor4 (1, 2, 2, 3)%nat [1; 2; 3; 4; 5; 6; 7; 8; 9; 10; 11; 12])
  = mkTensor4 (1, 2, 3, 2)%nat [1; 7; 2; 8; 3; 9; 4; 10; 5; 11; 6; 12].
Proof. reflexivity. Qed.

Example view_rows_run :
  view_rows 2 (mkTensor4 (1, 2, 3, 2)%nat [1; 7; 2; 8; 3; 9; 4; 10; 5; 11; 6; 12])
  = Ok [[1; 7]; [2; 8]; [3; 9]; [4; 10]; [5; 11]; [6; 12]].
Proof. reflexivity. Qed.

Example view_rows_raises :
  view_rows 5 (mkTensor4 (1, 2, 3, 2)%nat [1; 7; 2; 8; 3; 9; 4; 10; 5; 11; 6; 12])
  = Raise ShapeMismatch.
Proof. reflexivity. Qed.

(** Index -1 selects the shared codebook and the last codebook. *)
Example select_codes_last :
  select_codes (-1) (discretizer demo_model)
  = (log_fetch 1 (log_fetch 0 (discretizer demo_model)), Ok [[0]; [1]]).
Proof. reflexivity. Qed.

Example select_codes_out_of_range :
  snd (select_codes 2 (discretizer demo_model)) = Raise InvalidIndex.
Proof. reflexivity. Qed.

Example laplace_smooth_run :
  laplace_smooth 2 (1 # 100000) [1; 0] = [100001 # 100002; 1 # 100002].
Proof. reflexivity. Qed.

Example mean_rows_run :
  mean_rows 3 [[0; 1; 0]; [1; 0; 0]] = [1 # 2; 1 # 2; 0].
Proof. reflexivity. Qed.

End Runs.

(** ** The statements at concrete inputs *)

Section Demo.
Local Open Scope R_scope.

(** C1 at a concrete call: silo 1 on the two initial codebooks. *)
Lemma forward_accessible_codewords_witness :
  exists s' out,
    forward demo_input 1 false demo_draw demo_store = (s', Ok out) /\
    fetched s' = [0%nat; 1%nat].
Proof.
  assert (Hrun : exists s' out,
             forward demo_input 1 false demo_draw demo_store = (s', Ok out)).
  { eexists. eapply forward_total with (flat_input := [[0]]);
      [ reflexivity | reflexivity | reflexivity | discriminate ]. }
  destruct Hrun as [s' [out Hrun]]. exists s', out.
  split; [ exact Hrun | ].
  destruct (forward_accessible_codewords _ _ _ _ _ Hrun) as [_ Hreturns].
  destruct (Hreturns out eq_refl)
    as [flat [codes [shared [_ [_ [_ [_ [_ Hpos]]]]]]]].
  destruct (Hpos ltac:(lia)) as [extra [_ [_ Hfetched]]].
  exact Hfetched.
Defined.

(** C4 fails as stated.  On the two initial codebooks: index -1 is negative
    and the forward pass returns (it reads the last codebook); with [ext]
    set, index 2, which is the length of the store at the call, is accepted
    too; and with [ext] set, index 3 raises [InvalidIndex] but leaves three
    codebooks where there were two. *)
Lemma forward_index_counterexample :
  (exists s' out,
     forward demo_input (-1) false demo_draw demo_store = (s', Ok out) /\
     fetched s' = [0%nat; 1%nat]) /\
  (exists s' out,
     forward demo_input 2 true demo_draw demo_store = (s', Ok out)) /\
  (exists s',
     forward demo_input 3 true demo_draw demo_store = (s', Raise InvalidIndex) /\
     length (codebooks demo_store) = 2%nat /\
     length (codebooks s') = 3%nat).
Proof.
  split; [ | split ].
  - assert (Hrun : exists out,
               forward demo_input (-1) false demo_draw demo_store
               = (log_fetch 1 (log_fetch 0 demo_store), Ok out)).
    { eapply forward_total with (flat_input := [[0]]);
        [ reflexivity | reflexivity | reflexivity | discriminate ]. }
    destruct Hrun as [out Hrun].
    exists (log_fetch 1 (log_fetch 0 demo_store)), out.
    split; [ exact Hrun | reflexivity ].
  - eexists. eapply forward_total with (flat_input := [[0]]);
      [ reflexivity | reflexivity | reflexivity | discriminate ].
  - eexists. split; [ | split ].
    + rewrite forward_unfold. reflexivity.
    + reflexivity.
    + reflexivity.
Qed.

(** C4 at a concrete call: index 5 on the two initial codebooks. *)
Lemma forward_index_error_witness :
  exists s',
    forward demo_input 5 false demo_draw demo_store = (s', Raise InvalidIndex) /\
    codebooks s' = codebooks demo_store.
Proof.
  assert (Hview : view_rows (_embedding_dim demo_store)
                            (permute_0231 demo_input) = Ok [[0]])
    by reflexivity.
  destruct (forward_index_error demo_input 5 false demo_draw demo_store Hview)
    as [Hout _].
  apply Hout. right. simpl. lia.
Defined.

(** C10 at a concrete call. *)
Lemma forward_store_frame_witness :
  codebooks (fst (forward demo_input 1 false demo_draw demo_store))
  = [[[0]]; [[1]]].
Proof.
  destruct (forward_store_frame demo_input 1 demo_draw demo_store)
    as [Hframe _].
  rewrite Hframe. reflexivity.
Defined.

(** C5 at a concrete input: one row, two codewords. *)
Lemma assign_one_hot_witness :
  exists encodings,
    assign 1 [[0]] [[0]; [1]] = Ok encodings /\
    tsum (concat encodings) = 1.
Proof.
  destruct (assign_one_hot 1 [[0]] [[0]; [1]]) as [Htotal Hprops].
  destruct Htotal as [encodings Hassign];
    [ reflexivity | discriminate | ].
  exists encodings. split; [ exact Hassign | ].
  destruct (Hprops encodings Hassign) as [_ [_ [Hsum _]]].
  rewrite Hsum. simpl. reflexivity.
Defined.


End Demo.

Section DemoStore.
Local Open Scope Q_scope.

(** C3 fails as stated.  The store has two codebooks.  A list of one matrix
    raises [InvalidIndex] only after codebook 0 has been overwritten; a list
    of three matrices is accepted, its last entry ignored. *)
Lemma load_codebooks_counterexample :
  codebooks (discretizer demo_model) = [[[0]]; [[1]]] /\
  snd (load_codebooks [[[5]]] demo_model) = Raise InvalidIndex /\
  codebooks (discretizer (fst (load_codebooks [[[5]]] demo_model)))
    = [[[5]]; [[1]]] /\
  snd (load_codebooks [[[5]]; [[6]]; [[7]]] demo_model) = Ok tt /\
  codebooks (discretizer (fst (load_codebooks [[[5]]; [[6]]; [[7]]] demo_model)))
    = [[[5]]; [[6]]].
Proof. repeat split. Qed.

(** C3 at a concrete call: a list as long as the store. *)
Lemma load_codebooks_witness :
  snd (load_codebooks [[[5]]; [[6]]] demo_model) = Ok tt /\
  codebooks (discretizer (fst (load_codebooks [[[5]]; [[6]]] demo_model)))
    = [[[5]]; [[6]]].
Proof.
  destruct (load_codebooks_spec [[[5]]; [[6]]] demo_model)
    as [_ [_ [Heq _]]].
  apply Heq. reflexivity.
Defined.

(** C8 fails as stated.  One call of [extend_codebooks] with [iteration = 1]
    leaves the two codebooks of the constructor: 2, not 2 + 1. *)
Lemma extend_codebooks_counterexample :
  length (codebooks (discretizer
            (extend_many [(1%Z, fun _ _ => 7)] demo_model))) = 2%nat /\
  length (codebooks (discretizer
            (extend_many [(2%Z, fun _ _ => 7)] demo_model))) = 3%nat.
Proof. split; reflexivity. Qed.

(** C8 at a concrete run: three calls that all append. *)
Lemma extend_codebooks_witness :
  length (codebooks (discretizer
            (extend_many [(2%Z, fun _ _ => 7); (3%Z, fun _ _ => 8);
                          (4%Z, fun _ _ => 9)] demo_model))) = 5%nat.
Proof.
  destruct (extend_codebooks_size
              [(2%Z, fun _ _ => 7); (3%Z, fun _ _ => 8); (4%Z, fun _ _ => 9)]
              1 1 (fun _ _ => 0) (fun _ _ => 1))
    as [_ [_ [Hall _]]].
  apply Hall. reflexivity.
Defined.


End DemoStore.

(** * Further properties of the code *)

(** ** Reading and loading the codebooks *)

Section GetAndLoad.
Context {T : Type} `{Scalar T}.

Lemma skipn_nth_error {A : Type} (a : nat) (l : list A) (x : A) :
  nth_error l a = Some x -> skipn a l = x :: skipn (S a) l.
Proof.
  revert l. induction a as [|a IH]; intros l Hx.
  - destruct l; [ discriminate | ]. simpl in Hx. injection Hx as ->. reflexivity.
  - destruct l as [|y l]; [ discriminate | ]. simpl in Hx.
    change (skipn (S a) (y :: l)) with (skipn a l).
    change (skipn (S (S a)) (y :: l)) with (skipn (S a) l).
    apply IH. exact Hx.
Qed.

(** The loop of [get_codebooks] over the indices [a, a + n) of the store. *)
Lemma get_loop_spec (n a : nat) (s : extVQ T) :
  (a + n <= length (codebooks s))%nat ->
  get_loop (seq a n) s =
  (mk_extVQ (_embedding_dim s) (_num_embeddings s) (_commitment_cost s)
            (codebooks s) (fetched s ++ seq a n),
   Ok (firstn n (skipn a (codebooks s)))).
Proof.
  revert a s. induction n as [|n IH]; intros a s Hlen.
  - simpl. rewrite app_nil_r. destruct s; reflexivity.
  - simpl seq. simpl get_loop. unfold bind.
    rewrite getitem_spec, abs_index_nonneg by lia. rewrite Nat2Z.id.
    destruct (nth_error (codebooks s) a) as [w|] eqn:Ew;
      [ | apply nth_error_None in Ew; lia ].
    rewrite IH by (simpl; lia). unfold ret. simpl.
    rewrite <- app_assoc. simpl.
    rewrite (skipn_nth_error _ _ Ew). reflexivity.
Qed.

Lemma get_codebooks_run (u : UEFL T) :
  get_codebooks u =
  (mk_UEFL (num_embeddings u) (dim u)
     (mk_extVQ (_embedding_dim (discretizer u)) (_num_embeddings (discretizer u))
               (_commitment_cost (discretizer u)) (codebooks (discretizer u))
               (fetched (discretizer u)
                ++ seq 0 (length (codebooks (discretizer u))))),
   Ok (codebooks (discretizer u))).
Proof.
  unfold get_codebooks, on_discretizer.
  rewrite get_loop_spec by lia. simpl skipn.
  rewrite firstn_all. reflexivity.
Qed.

(** X1.  [get_codebooks] never raises: it returns the weights of the store
    in index order, fetches every entry once, in order, and leaves the
    codebooks and the sizes of the module as they were. *)
Theorem get_codebooks_returns_store (u : UEFL T) :
  let run := get_codebooks u in
  let store := codebooks (discretizer u) in
  snd run = Ok store /\
  codebooks (discretizer (fst run)) = store /\
  fetched (discretizer (fst run))
    = fetched (discretizer u) ++ seq 0 (length store) /\
  num_embeddings (fst run) = num_embeddings u /\
  dim (fst run) = dim u.
Proof.
  intros run store. unfold run.
  rewrite get_codebooks_run.
  repeat split.
Qed.

Lemma on_discretizer_fst {A : Type} (m : M (extVQ T) A) (u : UEFL T) :
  discretizer (fst (on_discretizer m u)) = fst (m (discretizer u)) /\
  snd (on_discretizer m u) = snd (m (discretizer u)) /\
  num_embeddings (fst (on_discretizer m u)) = num_embeddings u /\
  dim (fst (on_discretizer m u)) = dim u.
Proof.
  unfold on_discretizer. destruct (m (discretizer u)); repeat split.
Qed.

(** What [load_codebooks] leaves in the store, entry by entry. *)
Lemma load_codebooks_entries (supplied : list (matrix T)) (u : UEFL T) :
  let store := codebooks (discretizer u) in
  let u' := fst (load_codebooks supplied u) in
  length (codebooks (discretizer u')) = length store /\
  (forall j,
     nth_error (codebooks (discretizer u')) j =
     if ((j <? length store) && (j <? length supplied))%nat
     then nth_error supplied j else nth_error store j) /\
  snd (load_codebooks supplied u) =
    if (length store <=? length supplied)%nat then Ok tt
    else Raise InvalidIndex.
Proof.
  intros store u'.
  destruct (load_loop_spec supplied (length store) 0 (discretizer u))
    as [Hlen [Hnth Hres]]; [ fold store; lia | ].
  destruct (on_discretizer_fst
              (load_loop supplied (seq 0 (length store))) u)
    as [Hfst [Hsnd _]].
  unfold u', load_codebooks. fold store. rewrite Hfst, Hsnd.
  split; [ exact Hlen | ]. split.
  - intros j. rewrite Hnth. fold store. nat_cases.
  - rewrite Hres. nat_cases.
Qed.

(** X2.  Reading and loading compose to round trips.  After
    [load_codebooks(supplied)] with a list at least as long as the store,
    [get_codebooks] returns the supplied matrices, one per codebook; and
    loading what [get_codebooks] has just returned succeeds and leaves
    every codebook as it was. *)
Theorem get_load_round_trip (supplied : list (matrix T)) (u : UEFL T) :
  let store := codebooks (discretizer u) in
  ((length store <= length supplied)%nat ->
   snd (get_codebooks (fst (load_codebooks supplied u)))
   = Ok (firstn (length store) supplied)) /\
  (forall u' weights,
     get_codebooks u = (u', Ok weights) ->
     snd (load_codebooks weights u') = Ok tt /\
     codebooks (discretizer (fst (load_codebooks weights u'))) = store).
Proof.
  intros store. split.
  - intros Hle.
    destruct (load_codebooks_entries supplied u) as [Hlen [Hnth _]].
    fold store in Hlen, Hnth.
    rewrite get_codebooks_run. simpl. f_equal.
    apply nth_error_ext. intros j.
    rewrite Hnth, nth_error_firstn.
    nat_cases; try (symmetry; apply nth_error_None; lia);
      apply nth_error_None; lia.
  - intros u' weights Hget.
    rewrite get_codebooks_run in Hget.
    injection Hget as Hu' Hw. subst weights. fold store.
    destruct (load_codebooks_entries store u') as [Hlen [Hnth Hres]].
    assert (Hstore' : codebooks (discretizer u') = store)
      by (subst u'; reflexivity).
    rewrite Hstore' in Hlen, Hnth, Hres.
    split.
    + rewrite Hres. nat_cases.
    + apply nth_error_ext. intros j. rewrite Hnth. nat_cases.
Qed.

End GetAndLoad.

(** ** Shapes kept by the forward pass *)

Section ForwardShapes.
Context {T : Type} `{Scalar T} `{Transcendental T}.

Lemma permute_0312_filled (x : tensor4 T) : wf_tensor (permute_0312 x).
Proof.
  unfold wf_tensor, numel, permute_0312.
  destruct (t_shape x) as [[[nb nh] nw] nc]. simpl.
  rewrite tabulate4_length. ring.
Qed.

Lemma permute_back_shape (x y : tensor4 T) :
  t_shape (permute_0312 (straight_through (permute_0231 x) y)) = t_shape x.
Proof.
  unfold permute_0312, straight_through, tmap2, permute_0231. simpl.
  destruct (t_shape x) as [[[nb nc] nh] nw]. reflexivity.
Qed.

(** X3.  The quantised tensor a forward pass returns has the shape of the
    feature tensor it was given, and its data fills that shape, whatever
    the silo index and the extend flag. *)
Theorem forward_output_shape (inputs : tensor4 T) (idx : Z) (ext : bool)
    (draw : nat -> nat -> T) (s s' : extVQ T) (q : tensor4 T) (loss ppl : T) :
  forward inputs idx ext draw s = (s', Ok (q, loss, ppl)) ->
  t_shape q = t_shape inputs /\
  wf_tensor q /\
  (wf_tensor inputs -> length (t_data q) = length (t_data inputs)).
Proof.
  intros Hfwd.
  destruct (forward_inv _ _ _ _ _ Hfwd)
    as [flat [codes [enc [_ [_ [_ Hout]]]]]].
  simpl in Hout. injection Hout as Hq _ _. subst q.
  split; [ apply permute_back_shape | ].
  split; [ apply permute_0312_filled | ].
  intros Hwf.
  pose proof (permute_0312_filled
                (straight_through (permute_0231 inputs)
                   (quantized_raw (_embedding_dim s)
                      (t_shape (permute_0231 inputs)) enc codes))) as Hfill.
  unfold wf_tensor in Hfill, Hwf. rewrite Hfill, Hwf.
  unfold numel. rewrite permute_back_shape. reflexivity.
Qed.

(** The codewords picked from a store whose codebooks all have shape
    [n x d]: rows of width [d], and at least [n] of them. *)
Lemma select_codes_shape (n d : nat) (idx : Z) (s s' : extVQ T)
    (codes : matrix T) :
  Forall (has_shape n d) (codebooks s) ->
  select_codes idx s = (s', Ok codes) ->
  widths_ok d codes = true /\
  (length codes = n \/ length codes = (n + n)%nat) /\
  (idx = 0%Z -> length codes = n) /\
  (idx <> 0%Z -> length codes = (n + n)%nat).
Proof.
  intros Hok Hsel. rewrite select_codes_spec in Hsel.
  rewrite Forall_forall in Hok.
  assert (Hwidth : forall w, In w (codebooks s) ->
                             widths_ok d w = true /\ length w = n).
  { intros w Hw. destruct (Hok w Hw) as [Hn Hd]. split; [ | exact Hn ].
    unfold widths_ok. apply forallb_forall. intros r Hr.
    rewrite Forall_forall in Hd. apply Nat.eqb_eq. apply Hd. exact Hr. }
  destruct (nth_error (codebooks s) 0) as [shared|] eqn:Hsh; [ | discriminate ].
  destruct (Hwidth shared (nth_error_In _ _ Hsh)) as [Hws Hns].
  destruct (idx =? 0)%Z eqn:Eidx.
  - apply Z.eqb_eq in Eidx. injection Hsel as _ <-.
    split; [ exact Hws | ]. split; [ left; exact Hns | ].
    split; [ intros _; exact Hns | intros Hne; contradiction ].
  - apply Z.eqb_neq in Eidx.
    destruct (abs_index (length (codebooks s)) idx) as [k|e]; [ | discriminate ].
    destruct (nth_error (codebooks s) k) as [extra|] eqn:Hex; [ | discriminate ].
    destruct (Hwidth extra (nth_error_In _ _ Hex)) as [Hwe Hne].
    injection Hsel as _ <-.
    assert (Hlen : length (shared ++ extra) = (n + n)%nat)
      by (rewrite length_app; lia).
    split.
    + unfold widths_ok in *. rewrite forallb_app, Hws, Hwe. reflexivity.
    + split; [ right; exact Hlen | ].
      split; [ intros E; contradiction | intros _; exact Hlen ].
Qed.

Lemma store_at_selection_ok (ext : bool) (draw : nat -> nat -> T) (s : extVQ T) :
  store_ok s ->
  Forall (has_shape (_num_embeddings s) (_embedding_dim s))
         (store_at_selection ext draw s).
Proof.
  unfold store_ok, store_at_selection. intros Hok.
  destruct ext; [ | exact Hok ].
  apply Forall_app. split; [ exact Hok | ].
  constructor; [ apply embedding_shape | constructor ].
Qed.

Lemma forward_fields (inputs : tensor4 T) (idx : Z) (ext : bool)
    (draw : nat -> nat -> T) (s : extVQ T) :
  _embedding_dim (fst (forward inputs idx ext draw s)) = _embedding_dim s /\
  _num_embeddings (fst (forward inputs idx ext draw s)) = _num_embeddings s /\
  _commitment_cost (fst (forward inputs idx ext draw s)) = _commitment_cost s.
Proof.
  rewrite forward_unfold.
  destruct (view_rows (_embedding_dim s) (permute_0231 inputs)) as [flat|e];
    [ | repeat split ].
  rewrite select_codes_spec. simpl codebooks.
  destruct (nth_error (store_at_selection ext draw s) 0);
    [ | repeat split ].
  destruct (idx =? 0)%Z; [ repeat split | ].
  destruct (abs_index (length (store_at_selection ext draw s)) idx) as [k|e];
    [ | repeat split ].
  destruct (nth_error (store_at_selection ext draw s) k); repeat split.
Qed.

Lemma extVQ_init_ok (n d : nat) (cc : T) (draw_embed draw_backup : nat -> nat -> T) :
  store_ok (extVQ_init n d cc draw_embed draw_backup).
Proof.
  unfold store_ok, extVQ_init. simpl.
  repeat constructor; apply embedding_shape.
Qed.

Lemma forward_store_ok (inputs : tensor4 T) (idx : Z) (ext : bool)
    (draw : nat -> nat -> T) (s : extVQ T) :
  store_ok s -> store_ok (fst (forward inputs idx ext draw s)).
Proof.
  intros Hok. unfold store_ok.
  destruct (forward_fields inputs idx ext draw s) as [Hd [Hn _]].
  rewrite Hd, Hn, forward_codebooks.
  destruct (view_rows (_embedding_dim s) (permute_0231 inputs));
    [ apply store_at_selection_ok; exact Hok | exact Hok ].
Qed.

(** X4.  The constructor gives the quantiser two codebooks of shape
    [num_embeddings x embedding_dim], and a forward pass keeps every
    codebook of that shape: the codebook [ext] appends has it too, and the
    sizes of the module never change. *)
Theorem forward_keeps_store_shapes (inputs : tensor4 T) (idx : Z) (ext : bool)
    (draw : nat -> nat -> T) (s : extVQ T) :
  (forall (n d : nat) (cc : T) (draw_embed draw_backup : nat -> nat -> T),
     store_ok (extVQ_init n d cc draw_embed draw_backup)) /\
  (store_ok s ->
   store_ok (fst (forward inputs idx ext draw s)) /\
   _embedding_dim (fst (forward inputs idx ext draw s)) = _embedding_dim s /\
   _num_embeddings (fst (forward inputs idx ext draw s)) = _num_embeddings s).
Proof.
  split.
  - intros n d cc d0 d1. apply extVQ_init_ok.
  - intros Hok.
    destruct (forward_fields inputs idx ext draw s) as [Hd [Hn _]].
    split; [ apply forward_store_ok; exact Hok | ].
    split; assumption.
Qed.

(** X5.  On a module whose codebooks all have the constructor's shape, with
    at least one codeword per codebook, a forward pass returns exactly when
    the features pass the reshape and the index lies in [-L, L), for [L]
    the length of the store at selection; it is then run on
    [num_embeddings] codewords for silo 0 and on twice as many for any
    other silo.  Otherwise it raises for the reshape or for the index, and
    for nothing else. *)
Theorem forward_returns_iff (inputs : tensor4 T) (idx : Z) (ext : bool)
    (draw : nat -> nat -> T) (s : extVQ T) :
  store_ok s -> (0 < _num_embeddings s)%nat ->
  let L := Z.of_nat (length (store_at_selection ext draw s)) in
  let run := forward inputs idx ext draw s in
  ((exists out, snd run = Ok out) <->
   (exists flat_input,
      view_rows (_embedding_dim s) (permute_0231 inputs) = Ok flat_input) /\
   (- L <= idx < L)%Z) /\
  (forall e, snd run = Raise e -> e = ShapeMismatch \/ e = InvalidIndex) /\
  (forall out, snd run = Ok out ->
   exists codes,
     select_codes idx (with_codebooks s (store_at_selection ext draw s))
       = (fst run, Ok codes) /\
     length codes
       = if (idx =? 0)%Z then _num_embeddings s
         else (_num_embeddings s + _num_embeddings s)%nat).
Proof.
  intros Hok Hn L run.
  pose proof (store_at_selection_ok ext draw Hok) as Hstore.
  set (store := store_at_selection ext draw s) in *.
  assert (Hunf := forward_unfold inputs idx ext draw s).
  fold store in Hunf. fold run in Hunf.
  destruct (view_rows (_embedding_dim s) (permute_0231 inputs))
    as [flat|e0] eqn:Hview.
  - destruct (select_codes idx (with_codebooks s store))
      as [s1 [codes|e1]] eqn:Hsel.
    + destruct (@select_codes_shape (_num_embeddings s) (_embedding_dim s) idx
                  (with_codebooks s store) s1 codes Hstore Hsel)
        as [Hw [_ [Hzero Hnonzero]]].
      assert (Hne : codes <> []).
      { intros E. subst codes.
        destruct (Z.eq_dec idx 0) as [Ez|Ez];
          [ specialize (Hzero Ez) | specialize (Hnonzero Ez) ];
          simpl in *; lia. }
      destruct (quantize_total (_embedding_dim s) (_commitment_cost s)
                  (permute_0231 inputs) flat Hw Hne) as [out Hq].
      rewrite Hq in Hunf.
      assert (Hidx : (- L <= idx < L)%Z).
      { rewrite select_codes_spec in Hsel. simpl codebooks in Hsel.
        destruct (nth_error store 0) eqn:Hsh; [ | discriminate ].
        assert (0 < length store)%nat by (apply nth_error_Some; congruence).
        destruct (idx =? 0)%Z eqn:Ez; [ apply Z.eqb_eq in Ez; unfold L; lia | ].
        destruct (Z_lt_ge_dec idx (- L)) as [Hlo|Hlo];
          [ rewrite (@abs_index_out (length store) idx) in Hsel
              by (left; exact Hlo); discriminate | ].
        destruct (Z_lt_ge_dec idx L) as [Hhi|Hhi]; [ lia | ].
        rewrite (@abs_index_out (length store) idx) in Hsel
          by (right; unfold L in Hhi; lia).
        discriminate. }
      rewrite Hunf. simpl. split; [ | split ].
      * split; [ intros _; split; [ exists flat; reflexivity | exact Hidx ]
               | intros _; exists out; reflexivity ].
      * intros e He. discriminate.
      * intros out' _. exists codes. split; [ reflexivity | ].
        destruct (Z.eqb_spec idx 0) as [Ez|Ez];
          [ apply Hzero | apply Hnonzero ]; exact Ez.
    + assert (He1 : e1 = InvalidIndex /\ ~ (- L <= idx < L)%Z).
      { rewrite select_codes_spec in Hsel. simpl codebooks in Hsel.
        destruct (nth_error store 0) eqn:Hsh.
        - assert (0 < length store)%nat by (apply nth_error_Some; congruence).
          destruct (idx =? 0)%Z eqn:Ez; [ discriminate | ].
          destruct (abs_index (length store) idx) as [k|e] eqn:Hk.
          + pose proof (abs_index_lt _ _ Hk) as Hlt.
            destruct (nth_error store k) eqn:Hx;
              [ discriminate | apply nth_error_None in Hx; lia ].
          + injection Hsel as _ <-.
            destruct (Z_lt_ge_dec idx 0) as [Hneg|Hpos].
            * destruct (Z_lt_ge_dec idx (- L)) as [Hlo|Hlo].
              -- rewrite (@abs_index_out (length store) idx) in Hk
                   by (left; exact Hlo).
                 injection Hk as <-. split; [ reflexivity | lia ].
              -- rewrite abs_index_negative in Hk by (unfold L in Hlo; lia).
                 discriminate.
            * destruct (Z_lt_ge_dec idx L) as [Hhi|Hhi].
              -- rewrite abs_index_nonneg in Hk by (unfold L in Hhi; lia).
                 discriminate.
              -- rewrite (@abs_index_out (length store) idx) in Hk
                   by (right; unfold L in Hhi; lia).
                 injection Hk as <-. split; [ reflexivity | lia ].
        - injection Hsel as _ <-. apply nth_error_None in Hsh.
          split; [ reflexivity | unfold L; lia ]. }
      destruct He1 as [-> Hout].
      rewrite Hunf. simpl. split; [ | split ].
      * split; [ intros [out E]; discriminate
               | intros [_ Hin]; contradiction ].
      * intros e He. injection He as <-. right. reflexivity.
      * intros out E. discriminate.
  - assert (He0 : e0 = ShapeMismatch).
    { unfold view_rows in Hview.
      destruct (_embedding_dim s =? 0)%nat; [ congruence | ].
      destruct (length (t_data (permute_0231 inputs)) mod _embedding_dim s =? 0)%nat;
        [ discriminate | congruence ]. }
    subst e0. rewrite Hunf. simpl. split; [ | split ].
    + split; [ intros [out E]; discriminate
             | intros [[flat E] _]; discriminate ].
    + intros e He. injection He as <-. left. reflexivity.
    + intros out E. discriminate.
Qed.

(** X6.  For silo 0 the extensible quantiser is the basic quantiser on
    the shared codebook: whatever the extend flag, [extVQ.forward] returns
    or raises what [VectorQuantizer.forward] does on codebook 0. *)
Theorem forward_silo0_is_basic (inputs : tensor4 T) (ext : bool)
    (draw : nat -> nat -> T) (s : extVQ T) (shared : matrix T)
    (rest : list (matrix T)) :
  codebooks s = shared :: rest ->
  snd (forward inputs 0 ext draw s)
  = snd (vq_forward inputs (shared_as_vq s shared)).
Proof.
  intros Hcb. rewrite forward_unfold. unfold vq_forward, shared_as_vq.
  cbn [vq_embedding_dim vq_num_embeddings vq_commitment_cost vq_weight].
  destruct (view_rows (_embedding_dim s) (permute_0231 inputs)) as [flat|e];
    [ | reflexivity ].
  rewrite Nat.eqb_refl. simpl negb. cbv iota.
  rewrite select_codes_spec. simpl codebooks.
  assert (Hsh : nth_error (store_at_selection ext draw s) 0 = Some shared).
  { unfold store_at_selection. rewrite Hcb. destruct ext; reflexivity. }
  rewrite Hsh. reflexivity.
Qed.

End ForwardShapes.

(** ** Shapes kept by the operations of UEFL *)

Section ModelShapes.
Context {T : Type} `{Scalar T} `{Transcendental T}.

Lemma Forall_nth_error {A : Type} (P : A -> Prop) (l : list A) :
  (forall j x, nth_error l j = Some x -> P x) -> Forall P l.
Proof.
  intros Hall. apply Forall_forall. intros x Hx.
  destruct (In_nth_error _ _ Hx) as [j Hj]. exact (Hall j x Hj).
Qed.

Lemma nth_error_Forall {A : Type} (P : A -> Prop) (l : list A) (j : nat) (x : A) :
  Forall P l -> nth_error l j = Some x -> P x.
Proof.
  intros Hall Hj. rewrite Forall_forall in Hall.
  apply Hall. exact (nth_error_In _ _ Hj).
Qed.

Lemma set_weight_fields (i : Z) (w : matrix T) (s : extVQ T) :
  _embedding_dim (fst (set_weight i w s)) = _embedding_dim s /\
  _num_embeddings (fst (set_weight i w s)) = _num_embeddings s.
Proof.
  unfold set_weight.
  destruct (abs_index (length (codebooks s)) i); split; reflexivity.
Qed.

Lemma load_loop_fields (supplied : list (matrix T)) (indices : list nat)
    (s : extVQ T) :
  _embedding_dim (fst (load_loop supplied indices s)) = _embedding_dim s /\
  _num_embeddings (fst (load_loop supplied indices s)) = _num_embeddings s.
Proof.
  revert s. induction indices as [|i rest IH]; intros s.
  - split; reflexivity.
  - simpl load_loop. unfold bind, lift, py_index.
    destruct (nth_error supplied i) as [w|]; [ | split; reflexivity ].
    destruct (set_weight_fields (Z.of_nat i) w s) as [Hd Hn].
    destruct (set_weight (Z.of_nat i) w s) as [s1 [[]|e]]; simpl in Hd, Hn.
    + destruct (IH s1) as [IHd IHn]. split; congruence.
    + simpl. split; assumption.
Qed.

Lemma model_ok_init (num_codes codeword_dim : nat)
    (draw_embed draw_backup : nat -> nat -> T) :
  model_ok (UEFL_init num_codes codeword_dim draw_embed draw_backup).
Proof.
  unfold model_ok, UEFL_init. simpl. repeat split.
  apply extVQ_init_ok.
Qed.

Lemma model_ok_extend (iteration : Z) (draw : nat -> nat -> T) (u : UEFL T) :
  model_ok u -> model_ok (fst (extend_codebooks iteration draw u)).
Proof.
  intros [Hn [Hd Hok]]. unfold extend_codebooks.
  destruct (1 <? iteration)%Z; [ | repeat split; assumption ].
  unfold on_discretizer, append_codebook, model_ok, store_ok. simpl.
  repeat split; try assumption.
  apply Forall_app. split; [ exact Hok | ].
  rewrite Hn, Hd. constructor; [ apply embedding_shape | constructor ].
Qed.

Lemma model_ok_load (supplied : list (matrix T)) (u : UEFL T) :
  model_ok u ->
  Forall (has_shape (num_embeddings u) (dim u))
         (firstn (length (codebooks (discretizer u))) supplied) ->
  model_ok (fst (load_codebooks supplied u)).
Proof.
  intros [Hn [Hd Hok]] Hsup.
  destruct (load_codebooks_entries supplied u) as [Hlen [Hnth _]].
  destruct (on_discretizer_fst
              (load_loop supplied (seq 0 (length (codebooks (discretizer u)))))
              u) as [Hfst [_ [Hn' Hd']]].
  destruct (load_loop_fields supplied
              (seq 0 (length (codebooks (discretizer u)))) (discretizer u))
    as [Hfd Hfn].
  unfold load_codebooks in *. rewrite <- Hfst in Hfd, Hfn.
  unfold model_ok, store_ok. rewrite Hfd, Hfn, Hn', Hd'.
  split; [ exact Hn | ]. split; [ exact Hd | ].
  rewrite Hn, Hd.
  apply Forall_nth_error. intros j x Hj. rewrite Hnth in Hj.
  destruct ((j <? length (codebooks (discretizer u)))
            && (j <? length supplied))%nat eqn:E.
  - apply andb_true_iff in E. destruct E as [E1 _]. apply Nat.ltb_lt in E1.
    apply (@nth_error_Forall _ _ _ j _ Hsup).
    rewrite nth_error_firstn.
    replace (j <? length (codebooks (discretizer u)))%nat with true
      by (symmetry; apply Nat.ltb_lt; exact E1).
    exact Hj.
  - unfold store_ok in Hok. rewrite Hn, Hd in Hok.
    exact (@nth_error_Forall _ _ _ j _ Hok Hj).
Qed.

Lemma Forall_list_set {A : Type} (P : A -> Prop) (k : nat) (a : A) (l : list A) :
  P a -> Forall P l -> Forall P (list_set k a l).
Proof.
  intros Ha Hl. revert k. induction Hl as [|b l Hb Hl IH]; intros k.
  - destruct k; constructor.
  - destruct k; simpl; constructor; try assumption. apply IH.
Qed.

Lemma model_ok_init_codebooks (encoder : tensor4 T -> result (tensor4 T))
    (kmeans_centers : nat -> matrix T -> result (matrix T))
    (Y : Type) (dsloader : list (tensor4 T * Y)) (idx : Z) (u : UEFL T) :
  model_ok u ->
  (forall rows centers,
     kmeans_centers (num_embeddings u) rows = Ok centers ->
     has_shape (num_embeddings u) (dim u) centers) ->
  model_ok (fst (init_codebooks encoder kmeans_centers dsloader idx u)).
Proof.
  intros Hu Hkm. pose proof Hu as [Hn [Hd Hok]].
  unfold init_codebooks, bind, lift.
  destruct (collect_features encoder (dim u) dsloader) as [feas|e];
    [ | exact Hu ].
  destruct (kmeans_centers (num_embeddings u) feas) as [centers|e] eqn:Ekm;
    [ | exact Hu ].
  unfold on_discretizer, set_weight.
  destruct (abs_index (length (codebooks (discretizer u))) idx) as [k|e];
    [ | simpl; destruct u; exact Hu ].
  unfold model_ok, store_ok. simpl.
  split; [ exact Hn | ]. split; [ exact Hd | ].
  apply Forall_list_set; [ | exact Hok ].
  rewrite Hn, Hd. exact (Hkm feas centers Ekm).
Qed.

Lemma model_ok_forward (encoder : tensor4 T -> result (tensor4 T))
    (classifier : matrix T -> result (matrix T))
    (x : tensor4 T) (idx : Z) (ext : bool) (draw : nat -> nat -> T)
    (u : UEFL T) :
  model_ok u ->
  model_ok (fst (UEFL_forward encoder classifier x idx ext draw u)).
Proof.
  intros Hu. pose proof Hu as [Hn [Hd Hok]].
  unfold UEFL_forward, bind, lift.
  destruct (encoder x) as [fea|e]; [ | exact Hu ].
  destruct (on_discretizer_fst (forward fea idx ext draw) u)
    as [Hfst [_ [Hn' Hd']]].
  destruct (forward_fields fea idx ext draw (discretizer u)) as [Hfd [Hfn _]].
  pose proof (forward_store_ok fea idx ext draw Hok) as Hok'.
  assert (Hafter : model_ok (fst (on_discretizer (forward fea idx ext draw) u))).
  { unfold model_ok. rewrite Hfst, Hn', Hd', Hfd, Hfn.
    repeat split; assumption. }
  destruct (on_discretizer (forward fea idx ext draw) u) as [u1 [[[q l] p]|e]];
    simpl in Hafter; [ | exact Hafter ].
  destruct (classifier (flatten1 q)); exact Hafter.
Qed.

(** X7.  The model and its quantiser agree on the shape of a codebook, and
    every codebook has that shape: the constructor establishes this, and
    [extend_codebooks] and [forward] keep it, whether they return or raise.
    [load_codebooks] keeps it when the matrices it assigns have the shape,
    and [init_codebooks] when the clustering returns centroids of that
    shape; neither checks, so a matrix of another shape is stored as it
    is. *)
Theorem model_shapes_kept (u : UEFL T) :
  (forall (n d : nat) (draw_embed draw_backup : nat -> nat -> T),
     model_ok (UEFL_init n d draw_embed draw_backup)) /\
  (model_ok u ->
   (forall (iteration : Z) (draw : nat -> nat -> T),
      model_ok (fst (extend_codebooks iteration draw u))) /\
   (forall encoder classifier (x : tensor4 T) (idx : Z) (ext : bool)
           (draw : nat -> nat -> T),
      model_ok (fst (UEFL_forward encoder classifier x idx ext draw u))) /\
   (forall supplied : list (matrix T),
      Forall (has_shape (num_embeddings u) (dim u))
             (firstn (length (codebooks (discretizer u))) supplied) ->
      model_ok (fst (load_codebooks supplied u))) /\
   (forall encoder kmeans_centers (Y : Type)
           (dsloader : list (tensor4 T * Y)) (idx : Z),
      (forall rows centers,
         kmeans_centers (num_embeddings u) rows = Ok centers ->
         has_shape (num_embeddings u) (dim u) centers) ->
      model_ok (fst (init_codebooks encoder kmeans_centers dsloader idx u)))) /\
  (forall (w : matrix T) (rest : list (matrix T)),
     codebooks (discretizer u) = w :: rest ->
     nth_error (codebooks (discretizer (fst (load_codebooks [[]] u)))) 0
     = Some []).
Proof.
  split; [ intros; apply model_ok_init | ].
  split.
  - intros Hu. split; [ intros; apply model_ok_extend; exact Hu | ].
    split; [ intros; apply model_ok_forward; exact Hu | ].
    split; [ intros; apply model_ok_load; assumption | ].
    intros. apply model_ok_init_codebooks; assumption.
  - intros w rest Hcb.
    destruct (load_codebooks_entries [[]] u) as [_ [Hnth _]].
    rewrite Hnth, Hcb. reflexivity.
Qed.

End ModelShapes.

(** ** The EMA quantiser *)

Section EMA.
Context {T : Type} `{Scalar T} `{Transcendental T}.

Lemma ema_forward_cases (inputs : tensor4 T) (s : VectorQuantizerEMA T) :
  ((exists e, ema_forward inputs s = (s, Raise e)) /\
   ((exists e, view_rows (ema_embedding_dim s) (permute_0231 inputs) = Raise e) \/
    length (embeddings_weight s) <> ema_num_embeddings s \/
    (exists flat_input e,
       view_rows (ema_embedding_dim s) (permute_0231 inputs) = Ok flat_input /\
       assign (ema_embedding_dim s) flat_input (embeddings_weight s)
       = Raise e))) \/
  (exists flat_input encodings,
     view_rows (ema_embedding_dim s) (permute_0231 inputs) = Ok flat_input /\
     length (embeddings_weight s) = ema_num_embeddings s /\
     assign (ema_embedding_dim s) flat_input (embeddings_weight s)
     = Ok encodings /\
     let x := permute_0231 inputs in
     let quantized :=
       quantized_raw (ema_embedding_dim s) (t_shape x) encodings
                     (embeddings_weight s) in
     ema_forward inputs s =
     ((if training s then ema_update encodings flat_input s else s),
      Ok (permute_0312 (straight_through x quantized),
          s_mul (ema_commitment_cost s)
                (mse_loss (tmap s_detach quantized) x),
          perplexity (ema_num_embeddings s) encodings))).
Proof.
  unfold ema_forward.
  destruct (view_rows (ema_embedding_dim s) (permute_0231 inputs))
    as [flat|e] eqn:Hview.
  - destruct (Nat.eqb_spec (length (embeddings_weight s)) (ema_num_embeddings s))
      as [Hlen|Hlen]; simpl negb; cbv iota.
    + destruct (assign (ema_embedding_dim s) flat (embeddings_weight s))
        as [enc|e] eqn:Hassign.
      * right. exists flat, enc. repeat split; try assumption.
      * left. split; [ exists e; reflexivity | ].
        right. right. exists flat, e. split; [ reflexivity | exact Hassign ].
    + left. split; [ exists ShapeMismatch; reflexivity | ].
      right. left. exact Hlen.
  - left. split; [ exists e; reflexivity | ].
    left. exists e. reflexivity.
Qed.

(** X8.  [VectorQuantizerEMA.forward] never changes the sizes, the
    commitment cost, the decay, the epsilon or the training flag of the
    module; in evaluation mode, and whenever it raises, it leaves the whole
    module as it was: the embedding table and both EMA buffers are written
    only by a training pass that reaches the update. *)
Theorem ema_forward_frame (inputs : tensor4 T) (s : VectorQuantizerEMA T) :
  let s' := fst (ema_forward inputs s) in
  (ema_embedding_dim s' = ema_embedding_dim s /\
   ema_num_embeddings s' = ema_num_embeddings s /\
   ema_commitment_cost s' = ema_commitment_cost s /\
   _decay s' = _decay s /\ _epsilon s' = _epsilon s /\
   training s' = training s) /\
  (training s = false -> s' = s) /\
  (forall e, snd (ema_forward inputs s) = Raise e -> s' = s).
Proof.
  intros s'. subst s'.
  destruct (ema_forward_cases inputs s)
    as [[[e He] _] | [flat [enc [_ [_ [_ Hrun]]]]]].
  - rewrite He. simpl. repeat split.
  - cbv zeta in Hrun. rewrite Hrun. simpl fst. simpl snd.
    split; [ | split ].
    + destruct (training s) eqn:Emode; simpl; repeat split; exact Emode.
    + intros Heval. rewrite Heval. reflexivity.
    + intros e He. discriminate.
Qed.

(** X9.  [VectorQuantizerEMA.forward] and [VectorQuantizer.forward] on the
    same sizes and embedding table raise the same exception or return the
    same quantised tensor and the same perplexity, in training mode as in
    evaluation mode: the update of the EMA quantiser acts on the next call
    only. *)
Theorem ema_forward_as_basic (inputs : tensor4 T) (s : VectorQuantizerEMA T) :
  match snd (ema_forward inputs s), snd (vq_forward inputs (ema_as_vq s)) with
  | Ok (q, _, ppl), Ok (q', _, ppl') => q = q' /\ ppl = ppl'
  | Raise e, Raise e' => e = e'
  | _, _ => False
  end.
Proof.
  unfold ema_forward, vq_forward, ema_as_vq, quantize. simpl.
  destruct (view_rows (ema_embedding_dim s) (permute_0231 inputs))
    as [flat|e]; [ | reflexivity ].
  destruct (Nat.eqb_spec (length (embeddings_weight s)) (ema_num_embeddings s))
    as [Hlen|Hlen]; simpl; [ | reflexivity ].
  destruct (assign (ema_embedding_dim s) flat (embeddings_weight s))
    as [enc|e]; simpl; [ | reflexivity ].
  rewrite Hlen. split; reflexivity.
Qed.

Lemma zip_with_length {A B C : Type} (f : A -> B -> C) (l : list A) (m : list B) :
  length (zip_with f l m) = Nat.min (length l) (length m).
Proof.
  revert m. induction l as [|a l IH]; intros [|b m]; simpl; try reflexivity.
  rewrite IH. reflexivity.
Qed.

Lemma zip_with_Forall {A B C : Type} (f : A -> B -> C) (P : C -> Prop)
    (l : list A) (m : list B) :
  (forall a b, In a l -> In b m -> P (f a b)) -> Forall P (zip_with f l m).
Proof.
  revert m. induction l as [|a l IH]; intros [|b m] Hall; simpl;
    try constructor.
  - apply Hall; left; reflexivity.
  - apply IH. intros a' b' Ha Hb. apply Hall; right; assumption.
Qed.

Lemma matmul_tl_shape (m d : nat) (encodings flat_input : matrix T) :
  has_shape m d (matmul_tl m d encodings flat_input).
Proof.
  unfold has_shape, matmul_tl. rewrite length_map, length_seq.
  split; [ reflexivity | ].
  apply Forall_forall. intros r Hr. apply in_map_iff in Hr.
  destruct Hr as [j [<- _]]. rewrite length_map. apply length_seq.
Qed.

Lemma ema_update_ok (encodings flat_input : matrix T)
    (s : VectorQuantizerEMA T) :
  ema_ok s -> ema_ok (ema_update encodings flat_input s).
Proof.
  intros [[Hwl Hwr] [[Hel Her] Hcs]].
  set (m := ema_num_embeddings s) in *. set (d := ema_embedding_dim s) in *.
  destruct (matmul_tl_shape m d encodings flat_input) as [Hdl Hdr].
  assert (Hsize :
    length (laplace_smooth m (_epsilon s)
              (ema_accumulate (_decay s) (_ema_cluster_size s)
                 (sum_rows m encodings))) = m).
  { unfold laplace_smooth, ema_accumulate, sum_rows.
    rewrite length_map, zip_with_length, length_map, length_seq, Hcs.
    apply Nat.min_id. }
  assert (Hw :
    has_shape m d
      (zip_with (zip_with (fun w k =>
                   s_add (s_mul w (_decay s))
                         (s_mul (s_sub s_one (_decay s)) k)))
                (_ema_w s) (matmul_tl m d encodings flat_input))).
  { split.
    - rewrite zip_with_length, Hel, Hdl. apply Nat.min_id.
    - apply zip_with_Forall. intros a b Ha Hb.
      rewrite Forall_forall in Her, Hdr.
      rewrite zip_with_length, (Her a Ha), (Hdr b Hb). apply Nat.min_id. }
  unfold ema_ok, ema_update. simpl. fold m. fold d.
  split; [ | split; [ exact Hw | exact Hsize ] ].
  destruct Hw as [Hl Hr]. split.
  - rewrite zip_with_length, Hl, Hsize. apply Nat.min_id.
  - apply zip_with_Forall. intros a b Ha _.
    rewrite Forall_forall in Hr. rewrite length_map. exact (Hr a Ha).
Qed.

Lemma has_shape_widths (n d : nat) (w : matrix T) :
  has_shape n d w -> widths_ok d w = true.
Proof.
  intros [_ Hr]. unfold widths_ok. apply forallb_forall. intros r Hin.
  rewrite Forall_forall in Hr. apply Nat.eqb_eq. exact (Hr r Hin).
Qed.

(** X10.  A forward pass keeps the shapes of the embedding table and of
    both EMA buffers, in training mode too.  On such a module with at least
    one codeword the pass returns exactly when the features pass the
    reshape, and the only exception it raises is the one of the reshape. *)
Theorem ema_forward_keeps_shapes (inputs : tensor4 T)
    (s : VectorQuantizerEMA T) :
  ema_ok s ->
  ema_ok (fst (ema_forward inputs s)) /\
  ((0 < ema_num_embeddings s)%nat ->
   ((exists out, snd (ema_forward inputs s) = Ok out) <->
    (exists flat_input,
       view_rows (ema_embedding_dim s) (permute_0231 inputs) = Ok flat_input)) /\
   (forall e, snd (ema_forward inputs s) = Raise e -> e = ShapeMismatch)).
Proof.
  intros Hok. pose proof Hok as [[Hwl Hwr] _].
  pose proof (has_shape_widths (conj Hwl Hwr)) as Hwidths.
  destruct (ema_forward_cases inputs s)
    as [[[e He] Hwhy] | [flat [enc [Hview [_ [_ Hrun]]]]]].
  - rewrite He. simpl. split; [ exact Hok | ]. intros Hpos.
    assert (Hne : embeddings_weight s <> []).
    { intros E. rewrite E in Hwl. simpl in Hwl. lia. }
    destruct Hwhy as [[e0 Hview] | [Hlen | [flat [e0 [Hview Hassign]]]]].
    + unfold ema_forward in He. rewrite Hview in He.
      injection He as He. subst e0.
      split.
      * split; [ intros [out Hout]; discriminate
               | intros [flat Hflat]; congruence ].
      * intros e' He'. injection He' as <-.
        unfold view_rows in Hview.
        destruct (ema_embedding_dim s =? 0)%nat;
          [ | destruct (_ =? 0)%nat ]; congruence.
    + contradiction.
    + destruct (@assign_total _ _ (ema_embedding_dim s) flat
                  (embeddings_weight s) Hwidths Hne) as [enc Henc].
      congruence.
  - cbv zeta in Hrun. rewrite Hrun. simpl fst. simpl snd.
    split.
    + destruct (training s); [ apply ema_update_ok | ]; exact Hok.
    + intros _. split.
      * split; [ intros _; exists flat; exact Hview
               | intros _; eexists; reflexivity ].
      * intros e He. discriminate.
Qed.

End EMA.

(** ** The two layouts *)

Section LayoutBack.
Context {T : Type} `{Scalar T}.

Lemma permute_roundtrip_back (y : tensor4 T) :
  wf_tensor y -> permute_0231 (permute_0312 y) = y.
Proof.
  unfold wf_tensor, numel.
  destruct y as [[[[nb nh] nw] nc] data]. simpl. intros Hlen.
  unfold permute_0312, permute_0231. simpl. f_equal.
  transitivity
    (tabulate4 nb nh nw nc
       (fun b h w c => nth (offset4 nh nw nc b h w c) data s_zero)).
  - apply tabulate4_ext. intros b h w c Hb Hh Hw Hc.
    rewrite tabulate4_nth by assumption. reflexivity.
  - apply tabulate4_offsets. exact Hlen.
Qed.

(** X11.  The two permutations of the forward passes, BCHW to BHWC on the
    way in and BHWC to BCHW on the way out, are inverse to each other on
    tensors whose data fill their shape, and both keep the number of
    elements. *)
Theorem permutations_inverse (x : tensor4 T) :
  wf_tensor x ->
  permute_0312 (permute_0231 x) = x /\
  permute_0231 (permute_0312 x) = x /\
  length (t_data (permute_0231 x)) = length (t_data x) /\
  length (t_data (permute_0312 x)) = length (t_data x).
Proof.
  intros Hwf.
  split; [ apply permute_roundtrip; exact Hwf | ].
  split; [ apply permute_roundtrip_back; exact Hwf | ].
  split.
  - rewrite permute_0231_length. symmetry. exact Hwf.
  - rewrite (permute_0312_filled x). unfold wf_tensor in Hwf. rewrite Hwf.
    unfold numel, permute_0312.
    destruct (t_shape x) as [[[nb nh] nw] nc]. simpl. ring.
Qed.

End LayoutBack.

(** ** The loss *)

Section LossReal.
Local Open Scope R_scope.













End LossReal.

(** ** The silo datasets *)

Section DatasetProperties.
Context {T : Type} `{Scalar T}.
Variable gaussian : nat -> list T.
Variable rotate : Q * Q -> Z -> nat * nat -> image T -> image T.

Lemma firstn_min_length {A : Type} (m : nat) (l : list A) :
  firstn (Nat.min m (length l)) l = firstn m l.
Proof.
  rewrite <- firstn_firstn. rewrite firstn_all. reflexivity.
Qed.

(** The slice of silo [k] for a sample size [m], both read as naturals. *)
Lemma py_slice_block {A : Type} (a : list A) (k m : nat) :
  py_slice a (Z.of_nat k * Z.of_nat m) ((Z.of_nat k + 1) * Z.of_nat m)
  = firstn m (skipn (k * m) a).
Proof.
  unfold py_slice.
  replace (Z.of_nat k * Z.of_nat m <? 0)%Z with false
    by (symmetry; apply Z.ltb_ge; lia).
  replace ((Z.of_nat k + 1) * Z.of_nat m <? 0)%Z with false
    by (symmetry; apply Z.ltb_ge; lia).
  destruct (Nat.le_gt_cases (length a) (k * m)) as [Hout|Hin].
  - rewrite (skipn_all2 a (n := k * m)) by exact Hout.
    rewrite (skipn_all2 a) by lia.
    rewrite !firstn_nil. reflexivity.
  - rewrite (Z.min_l (Z.of_nat k * Z.of_nat m)) by lia.
    replace (Z.to_nat (Z.of_nat k * Z.of_nat m)) with (k * m)%nat by lia.
    rewrite <- (firstn_min_length m (skipn (k * m) a)).
    f_equal. rewrite length_skipn. lia.
Qed.

Lemma py_slice_before_first {A : Type} (a : list A) (sample : Z) :
  (0 <= sample)%Z -> py_slice a (-1 * sample) ((-1 + 1) * sample) = [].
Proof.
  intros Hs. unfold py_slice.
  replace ((-1 + 1) * sample)%Z with 0%Z by lia.
  replace (0 <? 0)%Z with false by reflexivity.
  replace (Z.min 0 (Z.of_nat (length a))) with 0%Z by lia.
  set (start := (-1 * sample)%Z).
  destruct (Z.ltb_spec start 0) as [Hneg|Hpos].
  - replace (Z.to_nat (0 - Z.max 0 (start + Z.of_nat (length a))))
      with 0%nat by lia.
    reflexivity.
  - replace (Z.to_nat (0 - Z.min start (Z.of_nat (length a))))
      with 0%nat by lia.
    reflexivity.
Qed.

(** X15.  The slices [a[silo*sample : (silo+1)*sample]] of the silos
    0, 1, 2, ... are consecutive blocks of [sample] items: those of the
    first [n] silos, one after the other, are the first [n * sample] items
    of the file, so no item falls in two silos.  A silo past the end of the
    file gets what is left, possibly nothing, without an exception; and
    silo -1 always gets nothing. *)
Theorem silo_partition {A : Type} (a : list A) (n sample : nat) :
  let part := fun k : nat =>
    py_slice a (Z.of_nat k * Z.of_nat sample)
               ((Z.of_nat k + 1) * Z.of_nat sample) in
  concat (map part (seq 0 n)) = firstn (n * sample) a /\
  (forall k, part k = firstn sample (skipn (k * sample) a)) /\
  (forall k, length (part k) = Nat.min sample (length a - k * sample)) /\
  py_slice a (-1 * Z.of_nat sample) ((-1 + 1) * Z.of_nat sample) = [].
Proof.
  intros part.
  assert (Hpart : forall k, part k = firstn sample (skipn (k * sample) a))
    by (intros k; apply py_slice_block).
  split; [ | split; [ exact Hpart | split ] ].
  - rewrite <- flat_map_concat_map.
    rewrite (flat_map_ext_in part
               (fun k => firstn sample (skipn (0 + k * sample) a)))
      by (intros k _; apply Hpart).
    apply (flat_map_blocks a 0 sample n).
  - intros k. rewrite Hpart, length_firstn, length_skipn. reflexivity.
  - apply py_slice_before_first. lia.
Qed.

Lemma py_getitem_cases {A : Type} (l : list A) (i : Z) :
  ((- Z.of_nat (length l) <= i < Z.of_nat (length l))%Z /\
   exists a, py_getitem l i = Ok a) \/
  (~ (- Z.of_nat (length l) <= i < Z.of_nat (length l))%Z /\
   py_getitem l i = Raise InvalidIndex).
Proof.
  unfold py_getitem.
  destruct (Z_lt_ge_dec i (- Z.of_nat (length l))) as [Hlo|Hlo];
    [ right; split; [ lia | ];
      rewrite (@abs_index_out (length l) i) by (left; exact Hlo);
      reflexivity | ].
  destruct (Z_lt_ge_dec i (Z.of_nat (length l))) as [Hhi|Hhi];
    [ | right; split; [ lia | ];
        rewrite (@abs_index_out (length l) i) by (right; lia);
        reflexivity ].
  left. split; [ lia | ].
  destruct (abs_index (length l) i) as [k|e] eqn:Eabs.
  - pose proof (@abs_index_lt (length l) i k Eabs) as Hk. unfold py_index.
    destruct (nth_error l k) as [a|] eqn:Enth;
      [ exists a; reflexivity | ].
    apply nth_error_None in Enth. lia.
  - destruct (Z_lt_ge_dec i 0) as [Hneg|Hpos].
    + rewrite (@abs_index_negative (length l) i) in Eabs by lia. discriminate.
    + rewrite (@abs_index_nonneg (length l) i) in Eabs by lia. discriminate.
Qed.

Lemma py_getitem_nat {A : Type} (l : list A) (i : nat) :
  py_getitem l (Z.of_nat i) = py_index l i.
Proof.
  unfold py_getitem, py_index.
  destruct (Nat.lt_ge_cases i (length l)) as [Hin|Hout].
  - rewrite (@abs_index_nonneg (length l) (Z.of_nat i)) by lia.
    rewrite Nat2Z.id. reflexivity.
  - rewrite (@abs_index_out (length l) (Z.of_nat i)) by (right; lia).
    replace (nth_error l i) with (@None A)
      by (symmetry; apply nth_error_None; exact Hout).
    reflexivity.
Qed.

Lemma augment_silos_unfold (noise : bool) (i : nat) (x : image T)
    (silo num_silo : Z) :
  augment_silos gaussian rotate noise i x silo num_silo =
  match py_getitem (angles num_silo) silo with
  | Raise e => Raise e
  | Ok angle =>
      Ok (rotate (inject_Z (Z.of_nat (snd (image_hw x))) / 2,
                  inject_Z (Z.of_nat (fst (image_hw x))) / 2)%Q
                 angle (snd (image_hw x), fst (image_hw x))
                 (if noise && (5 <? silo)%Z
                  then add_noise x (gaussian i) else x))
  end.
Proof.
  unfold augment_silos.
  destruct (py_getitem (angles num_silo) silo); [ | reflexivity ].
  destruct (image_hw x) as [h w]. reflexivity.
Qed.

Lemma angles_length (num_silo : Z) :
  Z.of_nat (length (angles num_silo)) = if (num_silo =? 5)%Z then 5%Z else 9%Z.
Proof. unfold angles. destruct (num_silo =? 5)%Z; reflexivity. Qed.

(** X16.  [augment_silos] returns exactly when [silo] indexes the table of
    angles, of length 5 when [num_silo] is 5 and of length 9 otherwise, a
    negative [silo] counting from the end; outside it raises for the index,
    whatever the image.  The noise flag changes the result only for silos
    6, 7 and 8 of a table of 9, and these are rotated by 120 degrees: with
    [num_silo = 5] no image ever receives noise. *)
Theorem augment_silos_cases (noise : bool) (i : nat) (x : image T)
    (silo num_silo : Z) :
  let L := if (num_silo =? 5)%Z then 5%Z else 9%Z in
  let run := augment_silos gaussian rotate noise i x silo num_silo in
  ((exists r, run = Ok r) <-> (- L <= silo < L)%Z) /\
  (forall e, run = Raise e -> e = InvalidIndex) /\
  (run <> augment_silos gaussian rotate false i x silo num_silo ->
   noise = true /\ num_silo <> 5%Z /\ (6 <= silo <= 8)%Z /\
   py_getitem (angles num_silo) silo = Ok 120%Z).
Proof.
  intros L run. unfold run. rewrite !augment_silos_unfold.
  pose proof (angles_length num_silo) as HL. fold L in HL.
  destruct (py_getitem_cases (angles num_silo) silo)
    as [[Hin [angle Hget]] | [Hout Hget]]; rewrite HL in *; rewrite Hget.
  - split; [ split; [ intros _; exact Hin | intros _; eexists; reflexivity ] | ].
    split; [ intros e He; discriminate | ].
    intros Hdiff.
    destruct noise; [ | exfalso; apply Hdiff; reflexivity ].
    simpl andb in Hdiff.
    destruct (Z.ltb_spec 5 silo) as [Hgt|Hle];
      [ | exfalso; apply Hdiff; reflexivity ].
    assert (Hnum : num_silo <> 5%Z).
    { intros E. unfold L in Hin. rewrite E in Hin. simpl in Hin. lia. }
    assert (Hfalse : (num_silo =? 5)%Z = false) by (apply Z.eqb_neq; exact Hnum).
    unfold L in Hin. rewrite Hfalse in Hin.
    split; [ reflexivity | ]. split; [ exact Hnum | ].
    split; [ lia | ].
    rewrite <- Hget. unfold angles. rewrite Hfalse.
    assert (Hsilo : silo = 6%Z \/ silo = 7%Z \/ silo = 8%Z) by lia.
    destruct Hsilo as [-> | [-> | ->]]; reflexivity.
  - split; [ split; [ intros [r Hr]; discriminate | intros Hin; contradiction ] | ].
    split; [ intros e He; congruence | ].
    intros Hdiff. exfalso. apply Hdiff. reflexivity.
Qed.

Lemma augment_silos_returns (noise : bool) (i : nat) (x : image T)
    (silo num_silo : Z) :
  (- Z.of_nat (length (angles num_silo)) <= silo
   < Z.of_nat (length (angles num_silo)))%Z ->
  exists r, augment_silos gaussian rotate noise i x silo num_silo = Ok r.
Proof.
  intros Hin. rewrite augment_silos_unfold.
  destruct (py_getitem_cases (angles num_silo) silo)
    as [[_ [angle Hget]] | [Hout _]]; [ | contradiction ].
  rewrite Hget. eexists. reflexivity.
Qed.

Lemma augment_silos_raises (noise : bool) (i : nat) (x : image T)
    (silo num_silo : Z) :
  ~ (- Z.of_nat (length (angles num_silo)) <= silo
     < Z.of_nat (length (angles num_silo)))%Z ->
  augment_silos gaussian rotate noise i x silo num_silo = Raise InvalidIndex.
Proof.
  intros Hout. rewrite augment_silos_unfold.
  destruct (py_getitem_cases (angles num_silo) silo)
    as [[Hin _] | [_ Hget]]; [ contradiction | ].
  rewrite Hget. reflexivity.
Qed.

Lemma transform_loop_spec (noise : bool) (num_silo silo : Z) (xs : list (image T)) :
  forall (i0 : nat) (rs : list (image T)),
  transform_loop gaussian rotate noise num_silo silo i0 xs = Ok rs ->
  length rs = length xs /\
  forall j xj, nth_error xs j = Some xj ->
    exists r,
      augment_silos gaussian rotate noise (i0 + j) xj silo num_silo = Ok r /\
      nth_error rs j = Some r.
Proof.
  induction xs as [|x xs IH]; intros i0 rs Hrun.
  - simpl in Hrun. injection Hrun as <-.
    split; [ reflexivity | ]. intros [|j] xj Hj; discriminate.
  - simpl in Hrun.
    destruct (augment_silos gaussian rotate noise i0 x silo num_silo)
      as [r|e] eqn:Ex; [ | discriminate ].
    destruct (transform_loop gaussian rotate noise num_silo silo (S i0) xs)
      as [rs'|e] eqn:Erest; [ | discriminate ].
    injection Hrun as <-.
    destruct (IH (S i0) rs' Erest) as [Hlen Hnth].
    split; [ simpl; f_equal; exact Hlen | ].
    intros [|j] xj Hj.
    + simpl in Hj. injection Hj as <-. exists r.
      rewrite Nat.add_0_r. split; [ exact Ex | reflexivity ].
    + simpl in Hj. destruct (Hnth j xj Hj) as [r' [Hr' Hj']].
      exists r'. replace (i0 + S j)%nat with (S i0 + j)%nat by lia.
      split; [ exact Hr' | exact Hj' ].
Qed.

Lemma transform_loop_returns_iff (noise : bool) (num_silo silo : Z)
    (xs : list (image T)) (i0 : nat) :
  let L := Z.of_nat (length (angles num_silo)) in
  ((exists rs, transform_loop gaussian rotate noise num_silo silo i0 xs = Ok rs)
   <-> (xs = [] \/ (- L <= silo < L)%Z)) /\
  (forall e, transform_loop gaussian rotate noise num_silo silo i0 xs = Raise e ->
             e = InvalidIndex).
Proof.
  intros L.
  destruct (Z_lt_ge_dec silo (- L)) as [Hlo|Hlo];
    [ | destruct (Z_lt_ge_dec silo L) as [Hhi|Hhi] ].
  2: { assert (Hall : forall i, exists rs,
         transform_loop gaussian rotate noise num_silo silo i xs = Ok rs).
       { induction xs as [|x xs IH]; intros i; [ exists []; reflexivity | ].
         simpl.
         destruct (@augment_silos_returns noise i x silo num_silo) as [r Hr];
           [ fold L; lia | ].
         rewrite Hr. destruct (IH (S i)) as [rs Hrs]. rewrite Hrs.
         eexists. reflexivity. }
       destruct (Hall i0) as [rs Hrs]. rewrite Hrs.
       split; [ split; [ intros _; right; lia | intros _; exists rs; reflexivity ]
              | intros e He; discriminate ]. }
  all: destruct xs as [|x xs];
    [ simpl; split;
      [ split; [ intros _; left; reflexivity | intros _; exists []; reflexivity ]
      | intros e He; discriminate ]
    | simpl;
      rewrite (@augment_silos_raises noise i0 x silo num_silo)
        by (fold L; lia);
      split;
      [ split; [ intros [rs Hrs]; discriminate
               | intros [E | Hin]; [ discriminate | lia ] ]
      | intros e He; congruence ] ].
Qed.

Lemma FMNIST_init_unfold (files : fmnist_files T) (args : silo_args)
    (is_val : bool) (silo : Z) :
  let sample :=
    if is_val then (args_sample args / 4)%Z else args_sample args in
  let xs := py_slice (if is_val then xte_file files else xtr_file files)
                     (silo * sample) ((silo + 1) * sample) in
  let ys := py_slice (if is_val then yte_file files else ytr_file files)
                     (silo * sample) ((silo + 1) * sample) in
  FMNIST_init gaussian rotate files args is_val silo =
  match transform_loop gaussian rotate (args_noise args) (args_num_silo args)
                       silo 0 xs with
  | Raise e => Raise e
  | Ok rs => Ok (mk_FMNIST (args_noise args) (args_num_silo args)
                           (map (fun r => [r]) rs) ys)
  end.
Proof.
  unfold FMNIST_init, transform. destruct is_val; cbv zeta.
  - destruct (transform_loop gaussian rotate (args_noise args)
                (args_num_silo args) silo 0 _); reflexivity.
  - destruct (transform_loop gaussian rotate (args_noise args)
                (args_num_silo args) silo 0 _); reflexivity.
Qed.

(** X17.  A dataset that the constructor returns has one item per image
    of its partition; item [i] is the [i]-th image of the partition after
    [augment_silos], wrapped in an axis of size one, paired with the
    [i]-th label of the partition of the label file.  Where the label file
    is too short for an image, fetching the item raises for the index. *)
Theorem dataset_items (files : fmnist_files T) (args : silo_args)
    (is_val : bool) (silo : Z) (d : FMNIST_silo T) :
  FMNIST_init gaussian rotate files args is_val silo = Ok d ->
  let sample :=
    if is_val then (args_sample args / 4)%Z else args_sample args in
  let xs := py_slice (if is_val then xte_file files else xtr_file files)
                     (silo * sample) ((silo + 1) * sample) in
  let ys := py_slice (if is_val then yte_file files else ytr_file files)
                     (silo * sample) ((silo + 1) * sample) in
  ds_len d = length xs /\ ds_label d = ys /\
  ds_noise d = args_noise args /\ ds_num_silo d = args_num_silo args /\
  forall (i : nat) (x : image T),
    nth_error xs i = Some x ->
    exists r,
      augment_silos gaussian rotate (args_noise args) i x silo
                    (args_num_silo args) = Ok r /\
      ds_getitem d (Z.of_nat i)
      = match nth_error ys i with
        | Some y => Ok ([r], y)
        | None => Raise InvalidIndex
        end.
Proof.
  intros Hinit sample xs ys.
  pose proof (FMNIST_init_unfold files args is_val silo) as Hunf.
  cbv zeta in Hunf. fold sample in Hunf. fold xs in Hunf. fold ys in Hunf.
  rewrite Hunf in Hinit. clear Hunf.
  destruct (transform_loop gaussian rotate (args_noise args)
              (args_num_silo args) silo 0 xs) as [rs|e] eqn:Eloop;
    [ | discriminate ].
  injection Hinit as <-.
  destruct (transform_loop_spec _ _ _ _ _ Eloop) as [Hlen Hnth].
  unfold ds_len. cbn [ds_data ds_label ds_noise ds_num_silo].
  rewrite length_map.
  repeat (split; [ first [ exact Hlen | reflexivity ] | ]).
  intros i x Hx. destruct (Hnth i x Hx) as [r [Hr Hri]].
  exists r. split; [ exact Hr | ].
  unfold ds_getitem. cbn [ds_data ds_label].
  rewrite !py_getitem_nat. unfold py_index.
  rewrite nth_error_map, Hri. simpl.
  destruct (nth_error ys i); reflexivity.
Qed.

(** X18.  The constructor returns exactly when its partition of the image
    file is empty or [silo] indexes the table of angles: no image, no
    lookup.  The only exception it raises is the one of that lookup; in
    particular it returns, with an empty dataset, for silo -1 and any
    non-negative sample size. *)
Theorem dataset_init_returns_iff (files : fmnist_files T) (args : silo_args)
    (is_val : bool) (silo : Z) :
  let sample :=
    if is_val then (args_sample args / 4)%Z else args_sample args in
  let xs := py_slice (if is_val then xte_file files else xtr_file files)
                     (silo * sample) ((silo + 1) * sample) in
  let L := if (args_num_silo args =? 5)%Z then 5%Z else 9%Z in
  let run := FMNIST_init gaussian rotate files args is_val silo in
  ((exists d, run = Ok d) <-> (xs = [] \/ (- L <= silo < L)%Z)) /\
  (forall e, run = Raise e -> e = InvalidIndex) /\
  (silo = (-1)%Z -> (0 <= sample)%Z ->
   exists d, run = Ok d /\ ds_len d = 0%nat).
Proof.
  intros sample xs L run.
  pose proof (FMNIST_init_unfold files args is_val silo) as Hunf.
  cbv zeta in Hunf. fold sample in Hunf. fold xs in Hunf. fold run in Hunf.
  destruct (transform_loop_returns_iff (args_noise args) (args_num_silo args)
              silo xs 0) as [Hiff Hraise].
  rewrite angles_length in Hiff. fold L in Hiff.
  destruct (transform_loop gaussian rotate (args_noise args)
              (args_num_silo args) silo 0 xs) as [rs|e] eqn:Eloop.
  - rewrite Hunf. split; [ | split ].
    + split; [ intros _; apply Hiff; exists rs; reflexivity
             | intros _; eexists; reflexivity ].
    + intros e He. discriminate.
    + intros Hsilo Hsample. eexists. split; [ reflexivity | ].
      unfold ds_len. cbn [ds_data]. rewrite length_map.
      destruct (transform_loop_spec _ _ _ _ _ Eloop) as [Hlen _].
      rewrite Hlen. unfold xs. rewrite Hsilo.
      rewrite py_slice_before_first by exact Hsample. reflexivity.
  - rewrite Hunf. split; [ | split ].
    + split; [ intros [d Hd]; discriminate
             | intros Hcase; apply Hiff in Hcase;
               destruct Hcase as [rs Hrs]; discriminate ].
    + intros e' He'. injection He' as <-. apply Hraise. reflexivity.
    + intros Hsilo Hsample. exfalso.
      assert (Hempty : xs = []).
      { unfold xs. rewrite Hsilo.
        apply py_slice_before_first. exact Hsample. }
      destruct (proj2 Hiff (or_introl Hempty)) as [rs Hrs]. discriminate.
Qed.

End DatasetProperties.

(** ** The model's forward pass *)

Section ModelForward.
Context {T : Type} `{Scalar T} `{Transcendental T}.

Lemma forward_result_shape (inputs : tensor4 T) (idx : Z) (ext : bool)
    (draw : nat -> nat -> T) (s s' : extVQ T) (q : tensor4 T) (loss ppl : T) :
  forward inputs idx ext draw s = (s', Ok (q, loss, ppl)) ->
  t_shape q = t_shape inputs /\ wf_tensor q.
Proof.
  intros Hfwd.
  destruct (forward_inv _ _ _ _ _ Hfwd)
    as [flat [codes [enc [_ [_ [_ Hout]]]]]].
  cbv zeta in Hout.
  pose proof (f_equal (fun o => fst (fst o)) Hout) as Hq.
  cbv beta in Hq. cbn [fst] in Hq. subst q.
  split; [ apply permute_back_shape | apply permute_0312_filled ].
Qed.

Lemma flatten1_shape (q : tensor4 T) :
  wf_tensor q ->
  let '(nb, nc, nh, nw) := t_shape q in
  has_shape nb (nc * nh * nw) (flatten1 q).
Proof.
  unfold wf_tensor, numel, flatten1, has_shape.
  destruct (t_shape q) as [[[nb nc] nh] nw]. intros Hwf.
  split; [ apply chunks_length | ].
  apply chunks_widths. rewrite Hwf. apply Nat.eq_le_incl. ring.
Qed.

(** X19.  [UEFL.forward] composes the encoder, the quantiser and the
    classifier.  If the encoder raises, the model is untouched.  Otherwise
    the quantiser is left as its own forward pass leaves it, also when the
    classifier raises afterwards; an exception of the quantiser is passed
    on and the classifier is not run; and when the quantiser returns, the
    classifier receives one row per batch entry, of [C * H * W] entries,
    and the loss and the perplexity are returned as the quantiser gave
    them. *)
Theorem UEFL_forward_composition (encoder : tensor4 T -> result (tensor4 T))
    (classifier : matrix T -> result (matrix T))
    (x : tensor4 T) (idx : Z) (ext : bool) (draw : nat -> nat -> T)
    (u : UEFL T) :
  let run := UEFL_forward encoder classifier x idx ext draw u in
  match encoder x with
  | Raise e => run = (u, Raise e)
  | Ok fea =>
      let inner := forward fea idx ext draw (discretizer u) in
      discretizer (fst run) = fst inner /\
      match snd inner with
      | Raise e => snd run = Raise e
      | Ok (q, loss, ppl) =>
          (let '(nb, nc, nh, nw) := t_shape fea in
           has_shape nb (nc * nh * nw) (flatten1 q)) /\
          snd run = match classifier (flatten1 q) with
                    | Ok output => Ok (output, loss, ppl)
                    | Raise e => Raise e
                    end
      end
  end.
Proof.
  intros run. unfold run, UEFL_forward, bind, lift.
  destruct (encoder x) as [fea|e]; [ | reflexivity ].
  cbv zeta. unfold on_discretizer.
  destruct (forward fea idx ext draw (discretizer u))
    as [s1 [[[q loss] ppl]|e]] eqn:Hfwd; cbn [fst snd].
  - destruct (forward_result_shape _ _ _ _ _ Hfwd) as [Hshape Hwf].
    pose proof (flatten1_shape Hwf) as Hflat. rewrite Hshape in Hflat.
    destruct (classifier (flatten1 q)) as [output|e]; cbn [fst snd discretizer];
      (split; [ reflexivity | split; [ exact Hflat | reflexivity ] ]).
  - split; reflexivity.
Qed.

End ModelForward.

(** ** The EMA update *)

Section EMAUpdateReal.
Local Open Scope R_scope.

Lemma nth_zip_with {A B C : Type} (f : A -> B -> C) (l : list A) (m : list B)
    (i : nat) (da : A) (db : B) (dc : C) :
  (i < length l)%nat -> (i < length m)%nat ->
  nth i (zip_with f l m) dc = f (nth i l da) (nth i m db).
Proof.
  revert m i. induction l as [|a l IH]; intros [|b m] [|i] Hl Hm;
    simpl in *; try lia; [ reflexivity | apply IH; lia ].
Qed.

(** Column [j] of the one-hot encodings against column [c] of the
    features: the sum of entry [c] over the rows assigned to codeword [j]. *)
Lemma dot_assigned (m j c : nat) (indices : list nat) (flat_input : matrix R) :
  (j < m)%nat ->
  dot (column j (encode m indices)) (column c flat_input)
  = tsum (zip_with (fun k x => if (k =? j)%nat then nth c x 0 else 0)
                   indices flat_input).
Proof.
  intros Hj. unfold dot, column, encode.
  revert flat_input. induction indices as [|k indices IH]; intros [|x flat];
    try reflexivity.
  cbn [map zip_with]. rewrite !tsum_cons, IH.
  rewrite (one_hot_nth (T := R) m k j).
  replace (j <? m)%nat with true by (symmetry; apply Nat.ltb_lt; exact Hj).
  rewrite (Nat.eqb_sym j k). cbn [andb].
  destruct (k =? j)%nat; cbn [s_mul s_one s_zero R_scalar]; ring.
Qed.

Lemma matmul_tl_entry (m d j c : nat) (encodings flat_input : matrix R) :
  (j < m)%nat -> (c < d)%nat ->
  nth c (nth j (matmul_tl m d encodings flat_input) []) 0
  = dot (column j encodings) (column c flat_input).
Proof.
  intros Hj Hc. unfold matmul_tl.
  set (F := fun j0 : nat =>
              map (fun c0 : nat =>
                     dot (column j0 encodings) (column c0 flat_input))
                  (seq 0 d)).
  rewrite (nth_indep _ [] (F 0%nat))
    by (rewrite length_map, length_seq; exact Hj).
  rewrite (map_nth F), seq_nth by exact Hj. unfold F.
  set (G := fun c0 : nat => dot (column (0 + j) encodings) (column c0 flat_input)).
  rewrite (nth_indep _ 0 (G 0%nat))
    by (rewrite length_map, length_seq; exact Hc).
  rewrite (map_nth G), seq_nth by exact Hc. reflexivity.
Qed.

(** X20.  A training step moves row [j] of the buffer [_ema_w] to
    [decay] times its old value plus [1 - decay] times the sum of the
    feature rows assigned to codeword [j], entry by entry; and the new
    embedding table is the new buffer divided, row by row, by the new
    cluster size of the row. *)
Theorem ema_update_accumulates (s : VectorQuantizerEMA R)
    (indices : list nat) (flat_input : matrix R) (j c : nat) :
  ema_ok s ->
  (j < ema_num_embeddings s)%nat -> (c < ema_embedding_dim s)%nat ->
  let s' := ema_update (encode (ema_num_embeddings s) indices) flat_input s in
  nth c (nth j (_ema_w s') []) 0
  = nth c (nth j (_ema_w s) []) 0 * _decay s
    + (1 - _decay s)
      * tsum (zip_with (fun k x => if (k =? j)%nat then nth c x 0 else 0)
                       indices flat_input) /\
  nth c (nth j (embeddings_weight s') []) 0
  = nth c (nth j (_ema_w s') []) 0 / nth j (_ema_cluster_size s') 0.
Proof.
  intros Hok Hj Hc s'.
  pose proof (ema_update_ok (encode (ema_num_embeddings s) indices)
                flat_input Hok) as Hok'.
  fold s' in Hok'.
  destruct Hok as [_ [[Hel Her] _]].
  destruct Hok' as [_ [[Hel' Her'] Hcs']].
  set (m := ema_num_embeddings s) in *. set (d := ema_embedding_dim s) in *.
  assert (Hm' : ema_num_embeddings s' = m) by reflexivity.
  assert (Hd' : ema_embedding_dim s' = d) by reflexivity.
  rewrite Hm' in Hel', Hcs'. rewrite Hd' in Her'.
  destruct (matmul_tl_shape m d (encode m indices) flat_input) as [Hdl Hdr].
  assert (Hrow : length (nth j (_ema_w s) []) = d).
  { rewrite Forall_forall in Her. apply Her. apply nth_In. lia. }
  assert (Hdrow :
    length (nth j (matmul_tl m d (encode m indices) flat_input) []) = d).
  { rewrite Forall_forall in Hdr. apply Hdr. apply nth_In. lia. }
  assert (Hrow' : length (nth j (_ema_w s') []) = d).
  { rewrite Forall_forall in Her'. apply Her'. apply nth_In. lia. }
  split.
  - unfold s', ema_update. cbn [_ema_w]. fold m. fold d.
    rewrite (nth_zip_with _ _ _ [] [] []) by lia.
    rewrite (nth_zip_with _ _ _ 0 0 0) by lia.
    rewrite matmul_tl_entry by assumption.
    rewrite dot_assigned by exact Hj.
    reflexivity.
  - change (embeddings_weight s')
      with (zip_with (fun row c0 => map (fun w => s_div w c0) row)
                     (_ema_w s') (_ema_cluster_size s')).
    rewrite (nth_zip_with _ _ _ [] 0 []) by lia.
    set (row := nth j (_ema_w s') []) in *.
    set (size := nth j (_ema_cluster_size s') 0).
    rewrite (nth_indep _ 0 (s_div 0 size)) by (rewrite length_map; lia).
    rewrite (map_nth (fun w => s_div w size)). reflexivity.
Qed.

End EMAUpdateReal.

(** ** The cluster sizes in a training step *)

Section EMAStep.
Context {T : Type} `{Scalar T}.




End EMAStep.

(** ** The definitions run in float32 *)

Section FloatRuns.
Import SpecFloat.

(** In float32 the offset of the perplexity is absorbed by a mean of one
    half and by a mean of one. *)
Example f32_offset_absorbed :
  s_add (s_div (f32_of_Z 1) (f32_of_Z 2)) lit_1e_10
    = s_div (f32_of_Z 1) (f32_of_Z 2) /\
  s_add (f32_of_Z 1) lit_1e_10 = f32_of_Z 1.
Proof. split; vm_compute; reflexivity. Qed.

(** In float32 the mean squared error of two tensors without an element
    is NaN. *)
Example f32_mse_loss_empty :
  mse_loss (mkTensor4 (0, 1, 1, 1)%nat ([] : list spec_float))
           (mkTensor4 (0, 1, 1, 1)%nat []) = S754_nan.
Proof. vm_compute. reflexivity. Qed.




End FloatRuns.

(** ** The further statements at concrete inputs *)

Section DemoFurther.
Local Open Scope R_scope.

Lemma demo_forward_runs (idx : Z) (ext : bool) (s' : extVQ R)
    (codes : matrix R) :
  select_codes idx
    (with_codebooks demo_store (store_at_selection ext demo_draw demo_store))
  = (s', Ok codes) ->
  widths_ok 1 codes = true -> codes <> [] ->
  exists out, forward demo_input idx ext demo_draw demo_store = (s', Ok out).
Proof.
  intros Hsel Hw Hne.
  apply forward_total with (flat_input := [[0]]) (codes := codes);
    [ reflexivity | exact Hsel | exact Hw | exact Hne ].
Qed.

Lemma demo_forward_silo1 :
  exists s' q loss ppl,
    forward demo_input 1 false demo_draw demo_store = (s', Ok (q, loss, ppl)).
Proof.
  destruct (@demo_forward_runs 1 false _ [[0]; [1]] eq_refl eq_refl)
    as [[[q loss] ppl] Hrun]; [ discriminate | ].
  eexists. exists q, loss, ppl. exact Hrun.
Qed.

(** X3 at a concrete call. *)
Lemma forward_output_shape_witness :
  exists s' q loss ppl,
    forward demo_input 1 false demo_draw demo_store = (s', Ok (q, loss, ppl)) /\
    t_shape q = (1, 1, 1, 1)%nat.
Proof.
  destruct demo_forward_silo1 as [s' [q [loss [ppl Hrun]]]].
  exists s', q, loss, ppl. split; [ exact Hrun | ].
  destruct (@forward_output_shape R _ _ demo_input 1 false demo_draw demo_store
              s' q loss ppl Hrun) as [Hshape _].
  exact Hshape.
Defined.

(** X4 at a concrete call: the pass that extends keeps the shapes. *)
Lemma forward_keeps_store_shapes_witness :
  store_ok (fst (forward demo_input 1 true demo_draw demo_store)).
Proof.
  destruct (@forward_keeps_store_shapes R _ _ demo_input 1 true demo_draw
              demo_store) as [Hinit Hkeep].
  destruct (Hkeep (Hinit 1%nat 1%nat lit_0_25 (fun _ _ => 0) (fun _ _ => 1)))
    as [Hok _].
  exact Hok.
Defined.

(** X5 at a concrete call: silo -2 on a store of two codebooks. *)
Lemma forward_returns_iff_witness :
  exists out, snd (forward demo_input (-2) false demo_draw demo_store) = Ok out.
Proof.
  assert (Hok : store_ok demo_store).
  { unfold store_ok, has_shape. simpl. repeat constructor. }
  assert (Hpos : (0 < _num_embeddings demo_store)%nat) by (simpl; lia).
  destruct (@forward_returns_iff R _ _ demo_input (-2) false demo_draw
              demo_store Hok Hpos) as [Hiff _].
  apply Hiff. split; [ exists [[0]]; reflexivity | simpl; lia ].
Defined.

(** X6 at a concrete call. *)
Lemma forward_silo0_is_basic_witness :
  snd (forward demo_input 0 true demo_draw demo_store)
  = snd (vq_forward demo_input (shared_as_vq demo_store [[0]])).
Proof.
  exact (@forward_silo0_is_basic R _ _ demo_input true demo_draw demo_store
           [[0]] [[[1]]] eq_refl).
Defined.

(** X10 at a concrete state: a training pass. *)
Lemma ema_forward_keeps_shapes_witness :
  ema_ok (fst (ema_forward demo_input demo_ema)).
Proof.
  assert (Hok : ema_ok demo_ema).
  { unfold ema_ok, has_shape. simpl. repeat constructor. }
  destruct (@ema_forward_keeps_shapes R _ _ demo_input demo_ema Hok)
    as [Hkept _].
  exact Hkept.
Defined.


(** X20 at a concrete state: the first training step, one row, assigned
    to codeword 0. *)
Lemma ema_update_accumulates_witness :
  nth 0 (nth 0 (_ema_w (ema_update (encode 2 [0%nat]) [[3]] demo_ema)) []) 0
  = 0 * (1 / 2) + (1 - 1 / 2) * (3 + 0).
Proof.
  assert (Hok : ema_ok demo_ema).
  { unfold ema_ok, has_shape. simpl. repeat constructor. }
  destruct (@ema_update_accumulates demo_ema [0%nat] [[3]] 0 0 Hok)
    as [Hw _].
  - simpl. lia.
  - simpl. lia.
  - exact Hw.
Defined.

(** X7 at a concrete call: a list of matrices of the shape of the store. *)
Lemma model_shapes_kept_witness :
  model_ok (fst (load_codebooks [[[5]]; [[6]]]
                   (UEFL_init 1 1 (fun _ _ => 0) (fun _ _ => 1)))).
Proof.
  destruct (model_shapes_kept (UEFL_init 1 1 (fun _ _ => 0) (fun _ _ => 1)))
    as [Hinit [Hkeep _]].
  destruct (Hkeep (Hinit 1%nat 1%nat (fun _ _ => 0) (fun _ _ => 1)))
    as [_ [_ [Hload _]]].
  apply Hload. unfold has_shape. simpl. repeat constructor.
Defined.

End DemoFurther.

Section DemoFurtherQ.
Local Open Scope Q_scope.

(** X2 at a concrete call: two matrices loaded, then read back. *)
Lemma get_load_round_trip_witness :
  snd (get_codebooks (fst (load_codebooks [[[5]]; [[6]]] demo_model)))
  = Ok [[[5]]; [[6]]].
Proof.
  destruct (get_load_round_trip [[[5]]; [[6]]] demo_model) as [Hread _].
  apply Hread. simpl. lia.
Defined.

(** X11 at a concrete tensor. *)
Lemma permutations_inverse_witness :
  permute_0231 demo_tensor = mkTensor4 (1, 1, 2, 2)%nat [1; 3; 2; 4] /\
  permute_0312 (permute_0231 demo_tensor) = demo_tensor.
Proof.
  split; [ reflexivity | ].
  destruct (permutations_inverse (x := demo_tensor) eq_refl) as [Hback _].
  exact Hback.
Defined.

(** X17 at a concrete dataset: silo 1 of the training files. *)
Lemma dataset_items_witness :
  exists d,
    FMNIST_init demo_gaussian demo_rotate demo_files demo_args false 1 = Ok d /\
    ds_len d = 1%nat /\ ds_label d = [8%Z].
Proof.
  exists (mk_FMNIST false 5 [[Gray 1 1 [2]]] [8%Z]).
  split; [ reflexivity | ].
  destruct (dataset_items demo_gaussian demo_rotate demo_files demo_args
              false 1 (d := mk_FMNIST false 5 [[Gray 1 1 [2]]] [8%Z]) eq_refl)
    as [Hlen [Hlabel _]].
  split; [ exact Hlen | exact Hlabel ].
Defined.

(** X18 at a concrete call: silo 7 of a table of five angles, on files of
    two images; the partition is empty and the constructor returns. *)
Lemma dataset_init_returns_iff_witness :
  exists d, FMNIST_init demo_gaussian demo_rotate demo_files demo_args false 7
            = Ok d.
Proof.
  destruct (dataset_init_returns_iff demo_gaussian demo_rotate demo_files
              demo_args false 7) as [Hiff _].
  apply Hiff. left. reflexivity.
Defined.

End DemoFurtherQ.
